(** * term-filter: a pty relay that strips CSI escape sequences

    Shallow embedding of [term-filter-main.c]: the CSI filter state
    machine of [csi_filter], the write loop of [safe_write], the pty
    session set-up of [run] and the control path of [main]. *)

From Stdlib Require Import ZArith Lia Ascii String.
From stdpp Require Import base list gmap.

Local Open Scope Z_scope.

(** A C [char] is represented by its value after integer promotion.  The
    filter only compares chars with the constants 033, 0133, 0100 and 0176
    and copies them, so nothing below depends on whether [char] is signed
    (values -128..127) or unsigned (0..255). *)
Abbreviation char := Z (only parsing).

Definition chars_of_string (s : string) : list char :=
  map (fun a => Z.of_N (N_of_ascii a)) (list_ascii_of_string s).

(** #define BUFSIZE 512 *)
Definition BUFSIZE : nat := 512.

(** * The CSI filter *)
Module Csi.

(** enum state { INIT, ESCAPE, CSI } *)
Inductive state := INIT | ESCAPE | CSI.

Definition ESC : char := 27.        (* 033 *)
Definition LBRACKET : char := 91.   (* 0133 *)

(** The [switch (state)] of the scanning loop for the char [c = *p]: the
    next state and the chars stored through [q]. *)
Definition csi_step (st : state) (c : char) : state * list char :=
  match st with
  | INIT =>
      if c =? 27 then (ESCAPE, [])
      else (INIT, [c])
  | ESCAPE =>
      if c =? 91 then (CSI, [])
      else (INIT, [27; c])
  | CSI =>
      if (64 <=? c) && (c <=? 126) then (INIT, [])
      else (CSI, [])
  end.

(** The [for (end = ibuf + n, p = ibuf, q = obuf; p < end; ++p)] loop: the
    state after the chunk and the contents of [obuf] up to [q]. *)
Fixpoint csi_scan (st : state) (ibuf : list char) : state * list char :=
  match ibuf with
  | [] => (st, [])
  | c :: rest =>
      let '(st1, o1) := csi_step st c in
      let '(st2, o2) := csi_scan st1 rest in
      (st2, o1 ++ o2)
  end.

(** The same loop on the fixed-size array [obuf], with [q] an index into
    it.  [*q++ = c] outside the array is an overflow, reported as [None]. *)
Definition store (obuf : list char) (q : nat) (c : char)
  : option (list char * nat) :=
  if decide (q < length obuf)%nat then Some (<[q := c]> obuf, S q) else None.

Definition csi_step_buf (st : state) (c : char) (obuf : list char) (q : nat)
  : option (state * list char * nat) :=
  match st with
  | INIT =>
      if c =? 27 then Some (ESCAPE, obuf, q)
      else '(obuf1, q1) ← store obuf q c; Some (INIT, obuf1, q1)
  | ESCAPE =>
      if c =? 91 then Some (CSI, obuf, q)
      else
        '(obuf1, q1) ← store obuf q 27;
        '(obuf2, q2) ← store obuf1 q1 c;
        Some (INIT, obuf2, q2)
  | CSI =>
      if (64 <=? c) && (c <=? 126) then Some (INIT, obuf, q)
      else Some (CSI, obuf, q)
  end.

Fixpoint csi_scan_buf (st : state) (ibuf : list char) (obuf : list char)
  (q : nat) : option (state * list char * nat) :=
  match ibuf with
  | [] => Some (st, obuf, q)
  | c :: rest =>
      '(st1, obuf1, q1) ← csi_step_buf st c obuf q;
      csi_scan_buf st1 rest obuf1 q1
  end.

(** The [while] loop over the chunks that [safe_read] delivers, the state
    being kept from one chunk to the next; the output of every chunk is
    handed to [safe_write] in turn, so the stream written is the
    concatenation. *)
Fixpoint csi_chunks (st : state) (chunks : list (list char))
  : state * list char :=
  match chunks with
  | [] => (st, [])
  | ibuf :: rest =>
      let '(st1, o1) := csi_scan st ibuf in
      let '(st2, o2) := csi_chunks st1 rest in
      (st2, o1 ++ o2)
  end.

(** Parameter bytes 0x30-0x3F and final bytes 0x40-0x7E of a CSI sequence. *)
Definition is_param (c : char) : Prop := 48 <= c <= 63.
Definition is_final (c : char) : Prop := 64 <= c <= 126.

(** The pending char of a state: [ESCAPE] owes one delayed ESC. *)
Definition pending (st : state) : nat :=
  match st with ESCAPE => 1 | _ => 0 end.

End Csi.

(** * Writing to a descriptor *)
Module SafeWrite.

Definition EINTR : Z := 4.

(** What the descriptor does with one [write] call: fail with an [errno],
    or accept at most [k] bytes of what is requested. *)
Inductive wres :=
| WFail (errno : Z)
| WTake (k : nat).

(** The descriptor: the answers it will give to the coming [write] calls,
    the bytes it has received, and the requests [(offset, length)] made to
    it, offsets counted from [buf]. *)
Record fdesc := {
  answers : list wres;
  sink : list char;
  calls : list (Z * Z)
}.

(** [write (fd, p, len)] with [p = buf + off], answered by [r].  [mem] is
    the array that [buf] points into, from [buf] on.  Returns the result
    [n], [errno], and the bytes the descriptor has received.  What lies
    beyond [mem] is not modelled: the definition says what the code does
    for the requests that lie within it, [off + len <= length mem]. *)
Definition write (r : wres) (mem : list char) (off len : Z)
  (received : list char) : Z * Z * list char :=
  match r with
  | WFail e => (-1, e, received)
  | WTake k =>
      let n := Z.min (Z.of_nat k) len in
      (n, 0, received ++ take (Z.to_nat n) (drop (Z.to_nat off) mem))
  end.

(** The [for (p = buf, avail = count; avail > 0; p += n, avail -= n)] loop
    with its inner [while] that repeats the call on [EINTR]; one answer of
    the descriptor is used per [write] call, [None] when they run out.
    [count] is a [size_t] and [avail] an [ssize_t]: the definition says
    what the code does for the [count] that [ssize_t] holds, for which
    [avail = count] keeps the value. *)
Fixpoint safe_write_loop (ans : list wres) (mem : list char) (count : Z)
  (off avail : Z) (received : list char) (log : list (Z * Z))
  : option (Z * fdesc) :=
  if avail <=? 0 then
    Some (count, {| answers := ans; sink := received; calls := log |})
  else
    match ans with
    | [] => None
    | r :: ans' =>
        let '(n, errno, received') := write r mem off count received in
        let log' := log ++ [(off, count)] in
        if (n <? 0) && (errno =? EINTR) then
          safe_write_loop ans' mem count off avail received' log'
        else if n <? 0 then
          Some (n, {| answers := ans'; sink := received'; calls := log' |})
        else
          safe_write_loop ans' mem count (off + n) (avail - n) received' log'
    end.

Definition safe_write (fd : fdesc) (mem : list char) (count : Z)
  : option (Z * fdesc) :=
  safe_write_loop (answers fd) mem count 0 count (sink fd) (calls fd).

(** A descriptor that has received nothing yet. *)
Definition fresh_fd (ans : list wres) : fdesc :=
  {| answers := ans; sink := []; calls := [] |}.

(** The whole of [csi_filter]: [reads] are the chunks that the successive
    [safe_read] calls put into [ibuf]; the loop ends when [safe_read] does
    not return more than 0, that is at an empty chunk or when [reads] is
    exhausted.  [obuf] is the output array, kept from one iteration to the
    next, and [out] the output descriptor.  The loop breaks when
    [safe_write] does not return [q - obuf]. *)
Fixpoint csi_filter_loop (reads : list (list char)) (st : Csi.state)
  (obuf : list char) (out : fdesc) : option fdesc :=
  match reads with
  | [] => Some out
  | ibuf :: reads' =>
      if decide (ibuf = []) then Some out
      else
        '(st1, obuf1, q) ← Csi.csi_scan_buf st ibuf obuf 0;
        '(r, out1) ← safe_write out obuf1 (Z.of_nat q);
        if r =? Z.of_nat q then csi_filter_loop reads' st1 obuf1 out1
        else Some out1
  end.

Definition csi_filter (reads : list (list char)) (obuf0 : list char)
  (out : fdesc) : option fdesc :=
  csi_filter_loop reads Csi.INIT obuf0 out.

End SafeWrite.

(** * Session establishment *)
Module Pty.

(** What the operating system answers to the calls that [run] makes. *)
Record os := {
  posix_openpt : Z;          (* the new master descriptor, or -1 *)
  grantpt : Z;               (* 0, or -1 *)
  unlockpt : Z;              (* 0, or -1 *)
  ptsname : option string;   (* the slave device, [None] for NULL *)
  open : Z;                  (* the new slave descriptor, or -1 *)
  fork : Z;                  (* -1, 0 in the child, the child's pid *)
  execvp_replaces : bool     (* [execvp] returns only when it fails *)
}.

(** How [run] ends, with the open descriptors of the process it ends in:
    it returns [ret] (and has stored [child] through the pointer, if it
    got that far), or, in the forked child, the target program takes over
    or the child exits. *)
Inductive outcome :=
| Returns (ret : Z) (child : option Z) (fds : gset Z)
| Execs (fds : gset Z)
| Exits (code : Z) (fds : gset Z).

Definition opened (fd : Z) (fds : gset Z) : gset Z := {[fd]} ∪ fds.
Definition close (fd : Z) (fds : gset Z) : gset Z := fds ∖ {[fd]}.
Definition dup2 (oldfd newfd : Z) (fds : gset Z) : gset Z := {[newfd]} ∪ fds.

Definition run (o : os) (fds : gset Z) : outcome :=
  let master := posix_openpt o in
  if master <? 0 then Returns (-1) None fds
  else
    let fds := opened master fds in
    if negb (grantpt o =? 0) || negb (unlockpt o =? 0) ||
       negb (bool_decide (is_Some (ptsname o))) || (open o <? 0)
    then (* no_slave: *)
      Returns (-1) None (close master fds)
    else
      let slave := open o in
      let fds := opened slave fds in
      let child := fork o in
      if child <? 0 then (* no_fork: *)
        Returns (-1) (Some child) (close master (close slave fds))
      else if child >? 0 then
        Returns master (Some child) (close slave fds)
      else
        let fds := close master fds in
        let fds := dup2 slave 2 (dup2 slave 1 (dup2 slave 0 fds)) in
        let fds := if slave >? 2 then close slave fds else fds in
        if execvp_replaces o then Execs fds else Exits 1 fds.

(** Session establishment fails at one of its steps. *)
Definition fails (o : os) : Prop :=
  posix_openpt o < 0 ∨ grantpt o ≠ 0 ∨ unlockpt o ≠ 0 ∨
  ptsname o = None ∨ open o < 0 ∨ fork o < 0.

(** The operating system hands out descriptors that are not open yet. *)
Definition fresh (o : os) (fds : gset Z) : Prop :=
  (0 <= posix_openpt o → posix_openpt o ∉ fds) ∧
  (0 <= open o → open o ∉ fds).

End Pty.

(** * The control path *)
Module Main.

Section Libc.

(** [struct termios] and [cfmakeraw] of <termios.h>, and the status macros
    of <sys/wait.h>. *)
Variable termios : Type.
Variable cfmakeraw : termios → termios.
Variable WIFEXITED : Z → bool.
Variable WEXITSTATUS : Z → Z.

(** What [main] does to the outside, in order. *)
Inductive event :=
| Usage
| Perror (msg : string)
| Tcgetattr (t : termios)
| Tcsetattr (t : termios)
| ThrdCreate (src dst : Z) (filtered : bool)
| ThrdDetach (filtered : bool)
| Sleep (seconds : Z)
| Waitpid (pid : option Z).

(** The attributes of the caller's terminal, the open descriptors and the
    events so far. *)
Record world := {
  tty : termios;
  fds : gset Z;
  trace : list event
}.

(** The circumstances of one execution: the arguments, the answers of the
    operating system to [run], whether descriptor 0 is a terminal, and the
    status stored by [waitpid] when it returns the child ([None] when it
    does not, leaving [status] as it was). *)
Record env := {
  argc : Z;
  pty : Pty.os;
  isatty0 : bool;
  waitpid : option Z
}.

(** The process ends by returning from [main] or by [exit], or has become
    the target program. *)
Inductive result :=
| Exit (status : Z)
| Exec.

Definition emit (ev : event) (w : world) : world :=
  {| tty := tty w; fds := fds w; trace := trace w ++ [ev] |}.

Definition tcgetattr (w : world) : termios * world :=
  (tty w, emit (Tcgetattr (tty w)) w).

Definition tcsetattr (t : termios) (w : world) : world :=
  emit (Tcsetattr t) {| tty := t; fds := fds w; trace := trace w |}.

Definition with_fds (s : gset Z) (w : world) : world :=
  {| tty := tty w; fds := s; trace := trace w |}.

Definition main (e : env) (w : world) : result * world :=
  if argc e <? 2 then (Exit 1, emit Usage w)
  else
    match Pty.run (pty e) (fds w) with
    | Pty.Execs s => (Exec, with_fds s w)
    | Pty.Exits c s =>
        (Exit c, emit (Perror "cannot run program") (with_fds s w))
    | Pty.Returns master child s =>
        let w := with_fds s w in
        if master <? 0 then (Exit 1, emit (Perror "cannot run program") w)
        else
          let status := 1 in
          let '(to, w) :=
            if isatty0 e then
              let '(to, w) := tcgetattr w in
              let tn := to in
              let tn := cfmakeraw tn in
              (Some to, tcsetattr tn w)
            else (None, w) in
          let w := emit (ThrdCreate 0 master false) w in
          let w := emit (ThrdCreate master 1 true) w in
          let w := emit (ThrdDetach false) w in
          let w := emit (ThrdDetach true) w in
          let w := emit (Sleep 1) w in
          let w := emit (Waitpid child) w in
          let '(status, w) :=
            match waitpid e with
            | None => (status, emit (Perror "cannot get program status") w)
            | Some s => (if WIFEXITED s then WEXITSTATUS s else 1, w)
            end in
          let w :=
            if isatty0 e then
              match to with
              | Some to => tcsetattr to w
              | None => w
              end
            else w in
          (Exit status, w)
    end.

(** The calls on the terminal attributes among the events. *)
Definition is_tc (ev : event) : bool :=
  match ev with
  | Tcgetattr _ | Tcsetattr _ => true
  | _ => false
  end.

Definition tc_events (w : world) : list event :=
  List.filter is_tc (trace w).

(** The execution gets as far as the session: a target command is given,
    the session is established, and this is the parent process. *)
Definition reaches_session (e : env) : Prop :=
  2 <= argc e ∧ ¬ Pty.fails (pty e) ∧ 0 < Pty.fork (pty e).

(** The events of the session, from raw mode to the restoration. *)
Definition session_events (e : env) (t : termios) (master : Z)
  (child : option Z) : list event :=
  (if isatty0 e then [Tcgetattr t; Tcsetattr (cfmakeraw t)] else []) ++
  [ThrdCreate 0 master false; ThrdCreate master 1 true;
   ThrdDetach false; ThrdDetach true; Sleep 1; Waitpid child] ++
  (match waitpid e with
   | None => [Perror "cannot get program status"]
   | Some _ => []
   end) ++
  (if isatty0 e then [Tcsetattr t] else []).

(** The status that the child exit watcher computes. *)
Definition watched_status (e : env) : Z :=
  match waitpid e with
  | Some s => if WIFEXITED s then WEXITSTATUS s else 1
  | None => 1
  end.

End Libc.

Arguments Usage {termios}.
Arguments Perror {termios} msg.
Arguments Tcgetattr {termios} t.
Arguments Tcsetattr {termios} t.
Arguments ThrdCreate {termios} src dst filtered.
Arguments ThrdDetach {termios} filtered.
Arguments Sleep {termios} seconds.
Arguments Waitpid {termios} pid.
Arguments Build_world {termios} tty fds trace.
Arguments tty {termios} w.
Arguments fds {termios} w.
Arguments trace {termios} w.
Arguments emit {termios} ev w.
Arguments with_fds {termios} s w.
Arguments tc_events {termios} w.
Arguments main {termios} cfmakeraw WIFEXITED WEXITSTATUS e w.
Arguments session_events {termios} cfmakeraw e t master child.

End Main.

(** * Concrete executions, to run the definitions on *)
Module Examples.

(** The pty calls succeed with master 3 and slave 4; [fork] returns
    [fork_ret]. *)
Definition os_with_fork (fork_ret : Z) : Pty.os :=
  {| Pty.posix_openpt := 3; Pty.grantpt := 0; Pty.unlockpt := 0;
     Pty.ptsname := Some "/dev/pts/7"%string; Pty.open := 4;
     Pty.fork := fork_ret; Pty.execvp_replaces := true |}.

(** The process starts with descriptors 0, 1 and 2 open. *)
Definition std_fds : gset Z := {[0; 1; 2]}.

(** Terminal attributes reduced to one number, 1 for raw mode. *)
Definition raw (t : Z) : Z := 1.

(** The status macros as Linux defines them. *)
Definition wifexited (s : Z) : bool := Z.land s 127 =? 0.
Definition wexitstatus (s : Z) : Z := Z.shiftr (Z.land s 65280) 8.

(** [term-filter program] in the parent process, child pid 1234. *)
Definition env_with (tty : bool) (wait : option Z) : Main.env :=
  {| Main.argc := 2; Main.pty := os_with_fork 1234;
     Main.isatty0 := tty; Main.waitpid := wait |}.

Definition cooked_world : Main.world Z :=
  {| Main.tty := 0; Main.fds := std_fds; Main.trace := [] |}.

End Examples.

(** * Reading from a descriptor *)
Module SafeRead.

(** What the descriptor does with one [read] call: fail with an [errno],
    or hand over at most [k] of the chars that are still to come. *)
Inductive rres :=
| RFail (errno : Z)
| RGive (k : nat).

(** The descriptor: the answers it will give to the coming [read] calls
    and the chars of the stream that have not been read yet. *)
Record rdesc := {
  ranswers : list rres;
  stream : list char
}.

(** [read (fd, buf, count)] answered by [r]: the result [n], [errno], the
    array [buf] afterwards and what is left of the stream.  The chars read
    are put at the start of [buf]; at the end of the stream [n] is 0. *)
Definition read (r : rres) (data buf : list char) (count : nat)
  : Z * Z * list char * list char :=
  match r with
  | RFail e => (-1, e, buf, data)
  | RGive k =>
      let n := (k `min` (count `min` length data))%nat in
      (Z.of_nat n, 0, take n data ++ drop n buf, drop n data)
  end.

(** The [while ((n = read (fd, buf, count)) < 0 && errno == EINTR) {}]
    loop; one answer is used per call, [None] when they run out. *)
Fixpoint safe_read_loop (ans : list rres) (data buf : list char)
  (count : nat) : option (Z * list char * rdesc) :=
  match ans with
  | [] => None
  | r :: ans' =>
      let '(n, errno, buf', data') := read r data buf count in
      if (n <? 0) && (errno =? SafeWrite.EINTR) then
        safe_read_loop ans' data' buf' count
      else Some (n, buf', {| ranswers := ans'; stream := data' |})
  end.

Definition safe_read (fd : rdesc) (buf : list char) (count : nat)
  : option (Z * list char * rdesc) :=
  safe_read_loop (ranswers fd) (stream fd) buf count.

(** The number of answers that are no failures. *)
Fixpoint gives (ans : list rres) : nat :=
  match ans with
  | [] => 0
  | RFail _ :: ans' => gives ans'
  | RGive _ :: ans' => S (gives ans')
  end.

(** An answer that does not end a relay loop before the end of the
    stream: an interruption, or at least one char. *)
Definition willing (r : rres) : Prop :=
  r = RFail SafeWrite.EINTR ∨ ∃ k, r = RGive (S k).

End SafeRead.

(** * The two relay loops, with their reads and writes *)
Module Relay.

Import SafeRead SafeWrite.

(** [no_filter]: [buf] is the array of [BUFSIZE] chars, [inp] and [out]
    the two descriptors.  Every turn of the loop uses at least one answer
    of [inp], so [fuel] above their number is never used up. *)
Fixpoint no_filter_loop (fuel : nat) (inp : rdesc) (buf : list char)
  (out : fdesc) : option (rdesc * fdesc) :=
  match fuel with
  | O => None
  | S fuel' =>
      '(n, buf1, inp1) ← safe_read inp buf BUFSIZE;
      if n >? 0 then
        '(r, out1) ← safe_write out buf1 n;
        if r =? n then no_filter_loop fuel' inp1 buf1 out1
        else Some (inp1, out1)
      else Some (inp1, out)
  end.

Definition no_filter (inp : rdesc) (buf : list char) (out : fdesc)
  : option (rdesc * fdesc) :=
  no_filter_loop (S (length (ranswers inp))) inp buf out.

(** [csi_filter] with its reads: [ibuf] has [BUFSIZE - 1] chars and [obuf]
    has [BUFSIZE]; the scanning loop runs over the [n] chars read. *)
Fixpoint csi_filter_loop (fuel : nat) (inp : rdesc) (st : Csi.state)
  (ibuf obuf : list char) (out : fdesc) : option (rdesc * fdesc) :=
  match fuel with
  | O => None
  | S fuel' =>
      '(n, ibuf1, inp1) ← safe_read inp ibuf (BUFSIZE - 1);
      if n >? 0 then
        '(st1, obuf1, q) ←
          Csi.csi_scan_buf st (take (Z.to_nat n) ibuf1) obuf 0;
        '(r, out1) ← safe_write out obuf1 (Z.of_nat q);
        if r =? Z.of_nat q then csi_filter_loop fuel' inp1 st1 ibuf1 obuf1 out1
        else Some (inp1, out1)
      else Some (inp1, out)
  end.

Definition csi_filter (inp : rdesc) (ibuf obuf : list char) (out : fdesc)
  : option (rdesc * fdesc) :=
  csi_filter_loop (S (length (ranswers inp))) inp Csi.INIT ibuf obuf out.

(** A descriptor that takes every request of up to [BUFSIZE] chars whole. *)
Definition takes_all (r : wres) : Prop := ∃ k, r = WTake k ∧ (BUFSIZE ≤ k)%nat.

(** The least value that POSIX allows for [SSIZE_MAX]: a [count] up to it
    fits [ssize_t] on every system. *)
Definition POSIX_SSIZE_MAX : Z := 32767.

(** The number of answers that bring [safe_write] forward: a failure other
    than an interruption, or at least one char taken. *)
Fixpoint progress (ans : list wres) : nat :=
  match ans with
  | [] => 0
  | WFail e :: ans' =>
      if e =? EINTR then progress ans' else S (progress ans')
  | WTake O :: ans' => progress ans'
  | WTake (S _) :: ans' => S (progress ans')
  end.

End Relay.

(** * The threads layer of [c11-threads.h] *)
Module Threads.

(** enum thrd_status *)
Inductive thrd_status :=
| thrd_success
| thrd_nomem
| thrd_timedout
| thrd_busy
| thrd_error.

(** enum mtx { mtx_plain, mtx_recursive, mtx_timed } *)
Definition mtx_plain : Z := 0.
Definition mtx_recursive : Z := 1.
Definition mtx_timed : Z := 2.

Inductive mutex_type := PTHREAD_MUTEX_DEFAULT | PTHREAD_MUTEX_RECURSIVE.

(** The pthread calls that [mtx_init] makes. *)
Inductive pcall :=
| Mutexattr_init
| Mutexattr_settype (t : mutex_type)
| Mutex_init
| Mutexattr_destroy.

Section Errno.

Variable ENOMEM : Z.

(** [mtx_init (o, type)], where [attr_ret] and [init_ret] are what
    [pthread_mutexattr_init] and [pthread_mutex_init] return: the status
    and the calls made. *)
Definition mtx_init (attr_ret init_ret : Z) (type : Z)
  : thrd_status * list pcall :=
  if negb (attr_ret =? 0) then (thrd_nomem, [Mutexattr_init])
  else
    let type :=
      if negb (Z.land type mtx_recursive =? 0) then PTHREAD_MUTEX_RECURSIVE
      else PTHREAD_MUTEX_DEFAULT in
    let ret := init_ret in
    (if ret =? 0 then thrd_success
     else if ret =? ENOMEM then thrd_nomem else thrd_error,
     [Mutexattr_init; Mutexattr_settype type; Mutex_init; Mutexattr_destroy]).

End Errno.

End Threads.

(** * Properties of the CSI filter *)
Section CsiFacts.

Import Csi.

Lemma csi_scan_cons st c rest :
  csi_scan st (c :: rest) =
  ((csi_scan (csi_step st c).1 rest).1,
   (csi_step st c).2 ++ (csi_scan (csi_step st c).1 rest).2).
Proof.
  simpl. destruct (csi_step st c) as [st1 o1]. simpl.
  destruct (csi_scan st1 rest) as [st2 o2]. reflexivity.
Qed.

Lemma csi_scan_app st a b :
  csi_scan st (a ++ b) =
  ((csi_scan (csi_scan st a).1 b).1,
   (csi_scan st a).2 ++ (csi_scan (csi_scan st a).1 b).2).
Proof.
  revert st. induction a as [|c a IH]; intros st.
  - simpl. destruct (csi_scan st b); reflexivity.
  - rewrite <- app_comm_cons, !csi_scan_cons, IH. simpl.
    by rewrite app_assoc.
Qed.

Lemma csi_chunks_concat st chunks :
  csi_chunks st chunks = csi_scan st (concat chunks).
Proof.
  revert st. induction chunks as [|ibuf chunks IH]; intros st; [done|].
  simpl. rewrite csi_scan_app.
  destruct (csi_scan st ibuf) as [st1 o1]. rewrite IH. simpl.
  by destruct (csi_scan st1 (concat chunks)).
Qed.

Lemma csi_scan_plain l :
  Forall (λ c, c ≠ ESC) l → csi_scan INIT l = (INIT, l).
Proof.
  induction 1 as [|c l Hc _ IH]; [done|].
  rewrite csi_scan_cons. unfold ESC in Hc. simpl.
  destruct (Z.eqb_spec c 27); [done|]. simpl. by rewrite IH.
Qed.

Lemma csi_step_in_csi c : ¬ is_final c → csi_step CSI c = (CSI, []).
Proof.
  unfold is_final. intros Hc. simpl.
  destruct (Z.leb_spec 64 c), (Z.leb_spec c 126); simpl; try done; lia.
Qed.

Lemma csi_step_final c : is_final c → csi_step CSI c = (INIT, []).
Proof.
  unfold is_final. intros Hc. simpl.
  destruct (Z.leb_spec 64 c), (Z.leb_spec c 126); simpl; try done; lia.
Qed.

Lemma csi_scan_in_csi l :
  Forall (λ c, ¬ is_final c) l → csi_scan CSI l = (CSI, []).
Proof.
  induction 1 as [|c l Hc _ IH]; [done|].
  rewrite csi_scan_cons, (csi_step_in_csi c Hc). simpl. by rewrite IH.
Qed.

Lemma param_not_final c : is_param c → ¬ is_final c.
Proof. unfold is_param, is_final. lia. Qed.

Lemma csi_step_esc : csi_step INIT ESC = (ESCAPE, []).
Proof. reflexivity. Qed.

Lemma csi_step_lbracket : csi_step ESCAPE LBRACKET = (CSI, []).
Proof. reflexivity. Qed.

Lemma csi_step_escape_other b :
  b ≠ LBRACKET → csi_step ESCAPE b = (INIT, [ESC; b]).
Proof.
  unfold LBRACKET. intros Hb. simpl. by destruct (Z.eqb_spec b 91).
Qed.

Lemma csi_scan_surjective st l :
  csi_scan st l = ((csi_scan st l).1, (csi_scan st l).2).
Proof. by destruct (csi_scan st l). Qed.

(** In [CSI], everything up to and including the first final byte is
    consumed. *)
Lemma csi_scan_in_csi_final ps f post :
  Forall (λ c, ¬ is_final c) ps → is_final f →
  csi_scan CSI (ps ++ f :: post) = csi_scan INIT post.
Proof.
  intros Hps Hf. rewrite csi_scan_app, (csi_scan_in_csi ps Hps).
  cbn [fst snd]. rewrite csi_scan_cons, (csi_step_final f Hf).
  cbn [fst snd app]. symmetry. apply csi_scan_surjective.
Qed.

(** A whole sequence [ESC '[' ps f] met in [INIT] is consumed. *)
Lemma csi_scan_sequence ps f post :
  Forall (λ c, ¬ is_final c) ps → is_final f →
  csi_scan INIT (ESC :: LBRACKET :: ps ++ f :: post) = csi_scan INIT post.
Proof.
  intros Hps Hf.
  rewrite csi_scan_cons, csi_step_esc. cbn [fst snd app].
  rewrite csi_scan_cons, csi_step_lbracket. cbn [fst snd app].
  rewrite (csi_scan_in_csi_final ps f post Hps Hf).
  symmetry. apply csi_scan_surjective.
Qed.

(** Each step stores at most one char more than the pending ESC it uses up. *)
Lemma csi_step_length st c :
  (length (csi_step st c).2 + pending (csi_step st c).1 ≤ 1 + pending st)%nat.
Proof.
  destruct st; simpl.
  - destruct (c =? 27); simpl; lia.
  - destruct (c =? 91); simpl; lia.
  - destruct ((64 <=? c) && (c <=? 126)); simpl; lia.
Qed.

Lemma csi_scan_length st ibuf :
  (length (csi_scan st ibuf).2 + pending (csi_scan st ibuf).1
   ≤ length ibuf + pending st)%nat.
Proof.
  revert st. induction ibuf as [|c rest IH]; intros st; [simpl; lia|].
  rewrite csi_scan_cons. simpl fst. simpl snd.
  rewrite length_app. simpl length.
  pose proof (csi_step_length st c). pose proof (IH (csi_step st c).1). lia.
Qed.

End CsiFacts.

(** The scanning loop on the array [obuf] stores what [csi_scan] computes,
    as long as the array has room for it. *)
Section CsiBuffer.

Import Csi.

Lemma store_ok obuf q c :
  (q < length obuf)%nat →
  store obuf q c = Some (<[q := c]> obuf, S q) ∧
  take (S q) (<[q := c]> obuf) = take q obuf ++ [c].
Proof.
  intros Hq. split.
  - unfold store. by rewrite decide_True.
  - rewrite (take_S_r _ _ c) by (by apply list_lookup_insert_eq).
    by rewrite take_insert_ge.
Qed.

Lemma csi_step_buf_ok st c obuf q :
  (q + length (csi_step st c).2 ≤ length obuf)%nat →
  ∃ obuf',
    csi_step_buf st c obuf q =
      Some ((csi_step st c).1, obuf', (q + length (csi_step st c).2)%nat) ∧
    length obuf' = length obuf ∧
    take (q + length (csi_step st c).2) obuf' = take q obuf ++ (csi_step st c).2.
Proof.
  destruct st; unfold csi_step, csi_step_buf.
  - destruct (c =? 27); cbn [fst snd length]; intros Hq.
    + exists obuf. by rewrite Nat.add_0_r, app_nil_r.
    + destruct (store_ok obuf q c) as [E Ht]; [lia|].
      exists (<[q := c]> obuf). rewrite E. cbn [mbind option_bind].
      by rewrite Nat.add_1_r, length_insert.
  - destruct (c =? 91); cbn [fst snd length]; intros Hq.
    + exists obuf. by rewrite Nat.add_0_r, app_nil_r.
    + destruct (store_ok obuf q 27) as [E1 Ht1]; [lia|].
      destruct (store_ok (<[q := 27]> obuf) (S q) c) as [E2 Ht2];
        [rewrite length_insert; lia|].
      exists (<[S q := c]> (<[q := 27]> obuf)).
      rewrite E1. cbn [mbind option_bind]. rewrite E2. cbn [mbind option_bind].
      replace (q + 2)%nat with (S (S q)) by lia.
      rewrite !length_insert, Ht2, Ht1, <- app_assoc. done.
  - destruct ((64 <=? c) && (c <=? 126)); cbn [fst snd length]; intros Hq;
      exists obuf; by rewrite Nat.add_0_r, app_nil_r.
Qed.

Lemma csi_scan_buf_ok ibuf : ∀ st obuf q,
  (q + length ibuf + pending st ≤ length obuf)%nat →
  ∃ obuf',
    csi_scan_buf st ibuf obuf q =
      Some ((csi_scan st ibuf).1, obuf', (q + length (csi_scan st ibuf).2)%nat) ∧
    length obuf' = length obuf ∧
    take (q + length (csi_scan st ibuf).2) obuf' = take q obuf ++ (csi_scan st ibuf).2.
Proof.
  induction ibuf as [|c rest IH]; intros st obuf q Hq.
  - exists obuf. simpl. by rewrite Nat.add_0_r, app_nil_r.
  - rewrite csi_scan_cons. cbn [fst snd csi_scan_buf length] in *.
    pose proof (csi_step_length st c) as Hstep.
    destruct (csi_step_buf_ok st c obuf q) as (obuf1 & -> & Hlen1 & Htake1);
      [lia|].
    simpl.
    destruct (IH (csi_step st c).1 obuf1 (q + length (csi_step st c).2)%nat)
      as (obuf2 & -> & Hlen2 & Htake2); [lia|].
    exists obuf2. rewrite length_app, Nat.add_assoc. split; [done|].
    split; [congruence|]. by rewrite Htake2, Htake1, app_assoc.
Qed.

End CsiBuffer.

(** * The claims on the CSI filter *)
Section CsiClaims.

Import Csi.

(** C3.  The filter does not depend on how its input is cut into chunks:
    for every state and every list of chunks, running the chunks one after
    the other with the state kept in between gives the state and the
    output of running their concatenation as one chunk.  In particular
    the chunks "AB" ESC "[3" and "1mCD" give "ABCD". *)
Theorem csi_chunking_invariant :
  (∀ st chunks, csi_chunks st chunks = csi_scan st (concat chunks)) ∧
  (csi_chunks INIT [chars_of_string "AB" ++ [ESC] ++ chars_of_string "[3";
                    chars_of_string "1mCD"]).2
    = chars_of_string "ABCD".
Proof. split; [apply csi_chunks_concat | reflexivity]. Qed.

(** C4.  An input without any ESC char comes out as it went in, however
    it is cut into chunks, and leaves the filter in [INIT]. *)
Theorem csi_plain_unchanged (chunks : list (list char)) :
  Forall (λ c, c ≠ ESC) (concat chunks) →
  csi_chunks INIT chunks = (INIT, concat chunks).
Proof. intros H. rewrite csi_chunks_concat. by apply csi_scan_plain. Qed.

Lemma csi_plain_unchanged_witness :
  csi_chunks INIT [chars_of_string "hel"; chars_of_string "lo";
                   chars_of_string "!"]
  = (INIT, chars_of_string "hello!").
Proof.
  apply (csi_plain_unchanged
           [chars_of_string "hel"; chars_of_string "lo";
            chars_of_string "!"]).
  repeat constructor; discriminate.
Defined.

(** C10.  A chunk of n chars produces at most n + 1 chars, and n + 1 only
    when the chunk is entered in [ESCAPE]; so the scanning loop never
    stores outside [obuf], which has [BUFSIZE] chars, for the at most
    [BUFSIZE - 1] chars that [ibuf] holds, and leaves in it, below [q],
    exactly that output. *)
Theorem csi_output_bound (st : state) (ibuf : list char) :
  (length (csi_scan st ibuf).2 ≤ length ibuf + 1)%nat ∧
  (length (csi_scan st ibuf).2 = (length ibuf + 1)%nat → st = ESCAPE) ∧
  ((length ibuf ≤ BUFSIZE - 1)%nat →
   ∀ obuf, length obuf = BUFSIZE →
   ∃ obuf' q,
     csi_scan_buf st ibuf obuf 0 = Some ((csi_scan st ibuf).1, obuf', q) ∧
     (q ≤ BUFSIZE)%nat ∧ length obuf' = BUFSIZE ∧
     take q obuf' = (csi_scan st ibuf).2).
Proof.
  pose proof (csi_scan_length st ibuf) as Hlen.
  split; [destruct st; simpl in Hlen; lia|].
  split; [destruct st; simpl in Hlen; (done || lia)|].
  intros Hn obuf Hobuf.
  destruct (csi_scan_buf_ok ibuf st obuf 0) as (obuf' & E & Hl & Ht).
  { unfold BUFSIZE in *. destruct st; simpl; lia. }
  exists obuf', (length (csi_scan st ibuf).2).
  split; [exact E|]. split; [|split; [congruence|exact Ht]].
  unfold BUFSIZE in *. destruct st; simpl in Hlen; lia.
Qed.

Lemma csi_output_bound_witness :
  ∃ obuf' q,
    csi_scan_buf ESCAPE [65] (replicate BUFSIZE 0) 0 = Some (INIT, obuf', q) ∧
    (q ≤ BUFSIZE)%nat ∧ length obuf' = BUFSIZE ∧ take q obuf' = [27; 65].
Proof.
  destruct (csi_output_bound ESCAPE [65]) as (_ & _ & H).
  apply (H ltac:(vm_compute; lia) (replicate BUFSIZE 0)).
  apply length_replicate.
Defined.

(** Against C2 as stated.  An ESC char met in [ESCAPE] is stored with the
    delayed one and the filter goes back to [INIT]: a sequence that
    follows a lone ESC is not recognised.  The input ESC ESC '[' "31m" "A"
    comes out whole. *)
Lemma csi_sequence_after_esc_emitted :
  Forall is_param [51; 49] ∧ is_final 109 ∧
  csi_scan INIT ([ESC] ++ [ESC; LBRACKET] ++ [51; 49] ++ [109] ++ [65])
  = (INIT, [ESC] ++ [ESC; LBRACKET] ++ [51; 49] ++ [109] ++ [65]).
Proof.
  split; [|split; [|reflexivity]].
  - repeat constructor; unfold is_param; lia.
  - unfold is_final; lia.
Qed.

(** C2, amended.  When the filter is in [INIT] as the ESC of a sequence
    ESC '[' ps f arrives (ps in 0x30-0x3F, f in 0x40-0x7E), no char of the
    sequence is emitted: the output is that of the chars before it
    followed by that of the chars after it, however the input is cut into
    chunks; when neither part has an ESC, it is these chars themselves.
    In [CSI] a char outside both ranges is consumed and the state stays
    [CSI]. *)
Theorem csi_sequence_dropped (pre ps post : list char) (f : char)
  (chunks : list (list char)) :
  Forall is_param ps → is_final f →
  (csi_scan INIT pre).1 = INIT →
  concat chunks = pre ++ [ESC; LBRACKET] ++ ps ++ [f] ++ post →
  csi_chunks INIT chunks =
    ((csi_scan INIT post).1, (csi_scan INIT pre).2 ++ (csi_scan INIT post).2) ∧
  (Forall (λ c, c ≠ ESC) pre → Forall (λ c, c ≠ ESC) post →
   csi_chunks INIT chunks = (INIT, pre ++ post)) ∧
  (∀ c, ¬ is_param c → ¬ is_final c → csi_step CSI c = (CSI, [])).
Proof.
  intros Hps Hf Hpre Hcat.
  assert (Hnf : Forall (λ c, ¬ is_final c) ps)
    by (eapply Forall_impl; [exact Hps | apply param_not_final]).
  assert (E : csi_chunks INIT chunks =
    ((csi_scan INIT post).1, (csi_scan INIT pre).2 ++ (csi_scan INIT post).2)).
  { rewrite csi_chunks_concat, Hcat, csi_scan_app, Hpre.
    change ([ESC; LBRACKET] ++ ps ++ [f] ++ post)
      with (ESC :: LBRACKET :: ps ++ f :: post).
    by rewrite (csi_scan_sequence ps f post Hnf Hf). }
  split; [exact E|]. split.
  - intros H1 H2. rewrite E.
    by rewrite (csi_scan_plain pre H1), (csi_scan_plain post H2).
  - intros c _ Hc. by apply csi_step_in_csi.
Qed.

Lemma csi_sequence_dropped_witness :
  csi_chunks INIT [chars_of_string "AB" ++ [ESC] ++ chars_of_string "[31mCD"]
  = (INIT, chars_of_string "ABCD").
Proof.
  destruct (csi_sequence_dropped (chars_of_string "AB") (chars_of_string "31")
              (chars_of_string "CD") 109
              [chars_of_string "AB" ++ [ESC] ++ chars_of_string "[31mCD"])
    as (_ & H & _).
  - repeat constructor; unfold is_param; simpl; lia.
  - unfold is_final; lia.
  - reflexivity.
  - reflexivity.
  - apply H; repeat constructor; discriminate.
Defined.

(** Against C5 as stated.  An ESC char met in [CSI] is consumed like any
    other char that is not a final byte: of ESC '[' ESC 'Z' nothing is
    emitted, although the second ESC is followed by 'Z' and not by '['.
    And an ESC char met in [ESCAPE] is emitted at once, so that an ESC
    that follows it is held back: after ESC ESC ESC the third ESC has not
    been emitted and the filter is in [ESCAPE]. *)
Lemma csi_esc_not_emitted_with_next :
  (90 ≠ LBRACKET ∧ csi_scan INIT [ESC; LBRACKET; ESC; 90] = (INIT, [])) ∧
  (ESC ≠ LBRACKET ∧ csi_scan INIT [ESC; ESC; ESC] = (ESCAPE, [ESC; ESC])).
Proof. split; (split; [discriminate | reflexivity]). Qed.

(** The two cases above are the only ones: when the ESC arrives in [CSI]
    neither it nor the next char is emitted, and when it arrives in
    [ESCAPE] and the next char is an ESC too, the filter ends in
    [ESCAPE]. *)
Lemma csi_esc_otherwise (pre : list char) (b : char) :
  ((csi_scan INIT pre).1 = CSI →
   (csi_scan INIT (pre ++ [ESC; b])).2 = (csi_scan INIT pre).2) ∧
  ((csi_scan INIT pre).1 = ESCAPE →
   csi_scan INIT (pre ++ [ESC; ESC]) =
     (ESCAPE, (csi_scan INIT pre).2 ++ [ESC; ESC])).
Proof.
  split; intros Hpre; rewrite csi_scan_app, Hpre; cbn [fst snd].
  - rewrite csi_scan_cons. change (csi_step CSI ESC) with (CSI, @nil Z).
    cbn [fst snd app]. rewrite csi_scan_cons. cbn [csi_scan snd].
    simpl csi_step. destruct ((64 <=? b) && (b <=? 126)); simpl;
      by rewrite app_nil_r.
  - reflexivity.
Qed.

(** C5, amended.  When an ESC arrives while the filter is in [INIT], or
    while it is in [ESCAPE] and the next char is no ESC, and the next char
    is not '[', the ESC and that char are both emitted, in this order, at
    the end of the output so far (which, in [ESCAPE], includes the ESC
    that was pending), and the filter is back in [INIT]; this holds
    however the input is cut into chunks, so also when the ESC ends one
    chunk and the char starts the next.  An ESC that arrives in [INIT] is
    held back until then. *)
Theorem csi_lone_esc_emitted (pre : list char) (b : char) :
  b ≠ LBRACKET →
  (csi_scan INIT pre).1 = INIT ∨
  ((csi_scan INIT pre).1 = ESCAPE ∧ b ≠ ESC) →
  (∀ chunks, concat chunks = pre ++ [ESC; b] →
     csi_chunks INIT chunks =
       (INIT, (csi_scan INIT pre).2 ++
              replicate (pending (csi_scan INIT pre).1) ESC ++ [ESC; b])) ∧
  csi_chunks INIT [pre ++ [ESC]; [b]] =
    (INIT, (csi_scan INIT pre).2 ++
           replicate (pending (csi_scan INIT pre).1) ESC ++ [ESC; b]) ∧
  ((csi_scan INIT pre).1 = INIT →
   csi_scan INIT (pre ++ [ESC]) = (ESCAPE, (csi_scan INIT pre).2)) ∧
  csi_scan ESCAPE [b] = (INIT, [ESC; b]).
Proof.
  intros Hb Hpre.
  assert (E : csi_scan INIT (pre ++ [ESC; b]) =
              (INIT, (csi_scan INIT pre).2 ++
                     replicate (pending (csi_scan INIT pre).1) ESC ++
                     [ESC; b])).
  { rewrite csi_scan_app. destruct Hpre as [->|[-> Hesc]]; cbn [fst snd].
    - rewrite !csi_scan_cons, csi_step_esc. cbn [fst snd].
      by rewrite (csi_step_escape_other b Hb).
    - rewrite !csi_scan_cons.
      change (csi_step ESCAPE ESC) with (INIT, [ESC; ESC]). cbn [fst snd].
      unfold ESC in Hesc. simpl csi_step.
      by destruct (Z.eqb_spec b 27). }
  split; [|split; [|split]].
  - intros chunks Hcat. by rewrite csi_chunks_concat, Hcat.
  - rewrite csi_chunks_concat. simpl concat.
    rewrite <- app_assoc. exact E.
  - intros Hinit. rewrite csi_scan_app, Hinit, csi_scan_cons, csi_step_esc.
    simpl. by rewrite app_nil_r.
  - by rewrite csi_scan_cons, (csi_step_escape_other b Hb).
Qed.

Lemma csi_lone_esc_emitted_witness :
  csi_chunks INIT [chars_of_string "A" ++ [ESC]; chars_of_string "Z"]
  = (INIT, chars_of_string "A" ++ [ESC] ++ chars_of_string "Z") ∧
  csi_chunks INIT [[ESC] ++ [ESC]; chars_of_string "Z"]
  = (INIT, [ESC; ESC] ++ chars_of_string "Z").
Proof.
  split.
  - destruct (csi_lone_esc_emitted (chars_of_string "A") 90)
      as (_ & H & _).
    + discriminate.
    + left. reflexivity.
    + exact H.
  - destruct (csi_lone_esc_emitted [ESC] 90) as (_ & H & _).
    + discriminate.
    + right. split; [reflexivity | discriminate].
    + exact H.
Defined.

(** Against C6 as stated.  A stream can end after an ESC, or after ESC '['
    and a parameter, with the filter in [INIT]: the ESC before it has been
    taken as the char that follows a lone ESC. *)
Lemma csi_stream_end_after_esc_in_init :
  csi_scan INIT [ESC; ESC] = (INIT, [ESC; ESC]) ∧
  csi_scan INIT [ESC; ESC; LBRACKET; 51] = (INIT, [ESC; ESC; LBRACKET; 51]).
Proof. split; reflexivity. Qed.

(** C6, amended.  When the filter is in [INIT] as the ESC arrives, a stream
    that ends with this ESC leaves it in [ESCAPE], and one that ends with
    ESC '[' and chars that are no final bytes leaves it in [CSI].  Input
    that comes later is handled as if the stream had not been
    interrupted, and when it completes the sequence, nothing of the
    sequence is emitted. *)
Theorem csi_pending_resumes (pre ps : list char) :
  (csi_scan INIT pre).1 = INIT →
  Forall (λ c, ¬ is_final c) ps →
  (csi_scan INIT (pre ++ [ESC])).1 = ESCAPE ∧
  (csi_scan INIT (pre ++ [ESC; LBRACKET] ++ ps)).1 = CSI ∧
  (∀ rest,
     csi_chunks INIT [pre ++ [ESC]; rest] =
       csi_scan INIT (pre ++ [ESC] ++ rest) ∧
     csi_chunks INIT [pre ++ [ESC; LBRACKET] ++ ps; rest] =
       csi_scan INIT (pre ++ [ESC; LBRACKET] ++ ps ++ rest)) ∧
  (∀ qs f post, Forall (λ c, ¬ is_final c) qs → is_final f →
     (csi_chunks INIT [pre ++ [ESC]; [LBRACKET] ++ qs ++ [f] ++ post]).2 =
       (csi_scan INIT pre).2 ++ (csi_scan INIT post).2 ∧
     (csi_chunks INIT [pre ++ [ESC; LBRACKET] ++ ps; qs ++ [f] ++ post]).2 =
       (csi_scan INIT pre).2 ++ (csi_scan INIT post).2).
Proof.
  intros Hpre Hps. split; [|split; [|split]].
  - rewrite csi_scan_app, Hpre. reflexivity.
  - rewrite csi_scan_app, Hpre. cbn [fst].
    change ([ESC; LBRACKET] ++ ps) with (ESC :: LBRACKET :: ps).
    rewrite csi_scan_cons, csi_step_esc. cbn [fst].
    rewrite csi_scan_cons, csi_step_lbracket. cbn [fst].
    by rewrite (csi_scan_in_csi ps Hps).
  - intros rest. rewrite !csi_chunks_concat. simpl concat.
    by rewrite !app_nil_r, <- !app_assoc.
  - intros qs f post Hqs Hf. rewrite !csi_chunks_concat. simpl concat.
    rewrite !app_nil_r, <- !app_assoc, !(csi_scan_app INIT pre), Hpre.
    cbn [fst snd]. split; f_equal.
    + cbn [app]. by rewrite (csi_scan_sequence qs f post Hqs Hf).
    + cbn [app]. rewrite app_assoc.
      rewrite (csi_scan_sequence (ps ++ qs) f post); [done| |done].
      by apply Forall_app.
Qed.

Lemma csi_pending_resumes_witness :
  (csi_scan INIT (chars_of_string "AB" ++ [ESC; LBRACKET] ++ [51])).1 = CSI ∧
  (csi_chunks INIT [chars_of_string "AB" ++ [ESC; LBRACKET] ++ [51];
                    chars_of_string "1mCD"]).2 = chars_of_string "ABCD".
Proof.
  destruct (csi_pending_resumes (chars_of_string "AB") [51])
    as (_ & H1 & _ & H2).
  - reflexivity.
  - repeat constructor. unfold is_final. lia.
  - split; [exact H1|].
    destruct (H2 [49] 109 (chars_of_string "CD")) as [_ H3].
    + repeat constructor. unfold is_final. lia.
    + unfold is_final. lia.
    + exact H3.
Defined.

End CsiClaims.

(** * Properties of [safe_write] *)
Section SafeWriteFacts.

Import SafeWrite.

Lemma safe_write_loop_done ans mem count off avail received log :
  avail <= 0 →
  safe_write_loop ans mem count off avail received log =
  Some (count, {| answers := ans; sink := received; calls := log |}).
Proof.
  intros H. destruct ans; simpl; by rewrite (proj2 (Z.leb_le avail 0) H).
Qed.

(** Every request made by the loop asks for [count] chars, whatever is
    left to write. *)
Lemma safe_write_loop_requests ans : ∀ mem count off avail received log r fd,
  safe_write_loop ans mem count off avail received log = Some (r, fd) →
  ∃ new, calls fd = log ++ new ∧ Forall (λ c, c.2 = count) new.
Proof.
  induction ans as [|a ans IH]; intros mem count off avail received log r fd;
    simpl; destruct (avail <=? 0) eqn:Ha; try discriminate.
  - intros [= <- <-]. exists []. simpl. by rewrite app_nil_r.
  - intros [= <- <-]. exists []. simpl. by rewrite app_nil_r.
  - destruct (write a mem off count received) as [[n errno] received'].
    destruct ((n <? 0) && (errno =? EINTR)).
    + intros H. destruct (IH _ _ _ _ _ _ _ _ H) as (new & -> & Hnew).
      exists ((off, count) :: new). rewrite <- app_assoc. split; [done|].
      by constructor.
    + destruct (n <? 0).
      * intros [= <- <-]. exists [(off, count)]. simpl. split; [done|].
        by repeat constructor.
      * intros H. destruct (IH _ _ _ _ _ _ _ _ H) as (new & -> & Hnew).
        exists ((off, count) :: new). rewrite <- app_assoc. split; [done|].
        by constructor.
Qed.

(** A descriptor that takes the whole request at once: [count] is returned
    after one call and the [count] chars of the buffer are received. *)
Lemma safe_write_full k ans mem count received log :
  0 < count → count <= Z.of_nat k →
  safe_write {| answers := WTake k :: ans; sink := received; calls := log |}
    mem count =
  Some (count, {| answers := ans;
                  sink := received ++ take (Z.to_nat count) mem;
                  calls := log ++ [(0, count)] |}).
Proof.
  intros H0 Hk. unfold safe_write. simpl.
  destruct (Z.leb_spec count 0); [lia|].
  rewrite Z.min_r by lia.
  destruct (Z.ltb_spec count 0); [lia|]. simpl.
  rewrite safe_write_loop_done by lia. by rewrite drop_0.
Qed.

(** Nothing to write: no call is made. *)
Lemma safe_write_nothing fd mem : safe_write fd mem 0 = Some (0, fd).
Proof.
  unfold safe_write. rewrite safe_write_loop_done by lia. by destruct fd.
Qed.

(** An interrupted call is repeated. *)
Lemma safe_write_eintr ans mem count received log :
  0 < count →
  safe_write {| answers := WFail EINTR :: ans; sink := received; calls := log |}
    mem count =
  safe_write {| answers := ans; sink := received; calls := log ++ [(0, count)] |}
    mem count.
Proof.
  intros H0. unfold safe_write. simpl.
  by destruct (Z.leb_spec count 0); [lia|].
Qed.

(** Any other error ends the loop with the negative result of [write]. *)
Lemma safe_write_error e ans mem count received log :
  0 < count → e ≠ EINTR →
  safe_write {| answers := WFail e :: ans; sink := received; calls := log |}
    mem count =
  Some (-1, {| answers := ans; sink := received;
               calls := log ++ [(0, count)] |}).
Proof.
  intros H0 He. unfold safe_write. simpl.
  destruct (Z.leb_spec count 0); [lia|].
  by destruct (Z.eqb_spec e EINTR).
Qed.

(** C1.  After a short write, [safe_write] passes [count] to [write]
    again instead of what is left: with a buffer "ab" (count 2) at the
    start of an array "abX" and a descriptor that takes 1 char and then
    whatever it is given, the second request is for 2 chars from offset 1,
    the descriptor receives "abX", and [safe_write] returns 2. *)
Theorem safe_write_short_write_overrun :
  safe_write (fresh_fd [WTake 1; WTake 2]) (chars_of_string "abX") 2 =
    Some (2, {| answers := [];
                sink := chars_of_string "abX";
                calls := [(0, 2); (1, 2)] |}).
Proof. reflexivity. Qed.

(** [csi_filter] on a descriptor that takes every request whole writes the
    output of the filter for the chunks read. *)
Lemma csi_filter_loop_blocking reads : ∀ st obuf out,
  Forall (λ ibuf : list char, ibuf ≠ [] ∧ (length ibuf ≤ BUFSIZE - 1)%nat)
    reads →
  length obuf = BUFSIZE →
  Forall (λ r, ∃ k, r = WTake k ∧ (BUFSIZE ≤ k)%nat) (answers out) →
  (length reads ≤ length (answers out))%nat →
  ∃ out', csi_filter_loop reads st obuf out = Some out' ∧
          sink out' = sink out ++ (Csi.csi_chunks st reads).2.
Proof.
  induction reads as [|ibuf reads IH]; intros st obuf out Hreads Hobuf Hans Hlen.
  - exists out. simpl. by rewrite app_nil_r.
  - apply Forall_cons in Hreads as [[Hne Hibuf] Hreads].
    cbn [csi_filter_loop]. rewrite decide_False by done.
    pose proof (csi_scan_length st ibuf) as Hbound.
    destruct (csi_scan_buf_ok ibuf st obuf 0) as (obuf1 & E & Hobuf1 & Hout).
    { unfold BUFSIZE in *. destruct st; simpl; lia. }
    rewrite Hobuf in Hobuf1. rewrite Nat.add_0_l in E, Hout. simpl in Hout.
    cbn [Csi.csi_chunks]. rewrite E. cbn [mbind option_bind].
    destruct (Csi.csi_scan st ibuf) as [st1 o1] eqn:Escan. cbn [fst snd] in *.
    assert (Hq : (length o1 ≤ BUFSIZE)%nat).
    { unfold BUFSIZE in *. destruct st, st1; simpl in Hbound; lia. }
    remember (length o1) as q eqn:Eq. clear Eq.
    destruct (Nat.eq_dec q 0%nat) as [->|Hq0].
    + rewrite safe_write_nothing. cbn [mbind option_bind]. simpl Z.eqb.
      destruct (IH st1 obuf1 out Hreads Hobuf1 Hans) as (out' & -> & Hs);
        [simpl in Hlen; lia|].
      exists out'. split; [done|]. rewrite Hs.
      destruct (Csi.csi_chunks st1 reads). simpl. by rewrite <- Hout.
    + rename Hne into Hnonempty. destruct out as [ans snk log].
      cbn [answers sink] in *.
      destruct ans as [|a ans]; [simpl in Hlen; lia|].
      apply Forall_cons in Hans as [(k & -> & Hk) Hans].
      rewrite safe_write_full by lia. cbn [mbind option_bind].
      rewrite Z.eqb_refl.
      destruct (IH st1 obuf1
                  {| answers := ans;
                     sink := snk ++ take (Z.to_nat (Z.of_nat q)) obuf1;
                     calls := log ++ [(0, Z.of_nat q)] |}
                  Hreads Hobuf1 Hans) as (out' & -> & Hs);
        [simpl in *; lia|].
      exists out'. split; [done|]. rewrite Hs. cbn [sink].
      rewrite Nat2Z.id, Hout.
      destruct (Csi.csi_chunks st1 reads). simpl. by rewrite app_assoc.
Qed.

Lemma csi_filter_blocking reads obuf m :
  Forall (λ ibuf : list char, ibuf ≠ [] ∧ (length ibuf ≤ BUFSIZE - 1)%nat)
    reads →
  length obuf = BUFSIZE → (length reads ≤ m)%nat →
  ∃ out', csi_filter reads obuf (fresh_fd (replicate m (WTake BUFSIZE)))
            = Some out' ∧
          sink out' = (Csi.csi_chunks Csi.INIT reads).2.
Proof.
  intros Hreads Hobuf Hm. unfold csi_filter.
  destruct (csi_filter_loop_blocking reads Csi.INIT obuf
              (fresh_fd (replicate m (WTake BUFSIZE))) Hreads Hobuf)
    as (out' & E & Hs).
  - simpl. apply Forall_replicate. by exists BUFSIZE.
  - simpl. by rewrite length_replicate.
  - by exists out'.
Qed.

End SafeWriteFacts.

(** * Properties of [run] *)
Section PtyFacts.

Import Pty.

Lemma close_opened fd (fds : gset Z) : fd ∉ fds → close fd (opened fd fds) = fds.
Proof.
  intros Hfd. apply set_eq. intros x. unfold close, opened.
  rewrite elem_of_difference, elem_of_union, !elem_of_singleton.
  split; [tauto|]. intros Hx. split; [by right|]. by intros ->.
Qed.

Lemma close_opened_two fd fd' (fds : gset Z) :
  fd ∉ fds → fd' ∉ fds →
  close fd (close fd' (opened fd' (opened fd fds))) = fds.
Proof.
  intros Hfd Hfd'. apply set_eq. intros x. unfold close, opened.
  rewrite !elem_of_difference, !elem_of_union, !elem_of_singleton.
  split; [tauto|]. intros Hx.
  split; [split; [tauto|]|]; by intros ->.
Qed.

(** On a failure [run] returns -1 in the calling process. *)
Lemma run_fails_returns o fds :
  fails o → ∃ child fds', run o fds = Returns (-1) child fds'.
Proof.
  unfold fails, run. intros H.
  destruct (Z.ltb_spec (posix_openpt o) 0); [by eauto|].
  destruct (Z.eqb_spec (grantpt o) 0); [|by eauto].
  destruct (Z.eqb_spec (unlockpt o) 0); [|by eauto].
  destruct (ptsname o) as [dev|] eqn:Hdev; [|by eauto].
  destruct (Z.ltb_spec (open o) 0); [by eauto|].
  cbn [negb orb]. rewrite bool_decide_true by eauto. cbn [negb].
  destruct (Z.ltb_spec (fork o) 0); [by eauto|].
  exfalso. destruct H as [?|[?|[?|[?|[?|?]]]]]; (lia || done).
Qed.

(** Without a failure, in the parent process, [run] returns the master
    descriptor and has stored the child's pid; the slave is closed. *)
Lemma run_parent o fds :
  ¬ fails o → 0 < fork o →
  0 <= posix_openpt o ∧
  run o fds =
    Returns (posix_openpt o) (Some (fork o))
      (close (open o) (opened (open o) (opened (posix_openpt o) fds))).
Proof.
  unfold fails, run. intros H Hfork.
  destruct (Z.ltb_spec (posix_openpt o) 0); [tauto|]. split; [done|].
  destruct (Z.eqb_spec (grantpt o) 0); [|tauto].
  destruct (Z.eqb_spec (unlockpt o) 0); [|tauto].
  destruct (ptsname o) as [dev|] eqn:Hdev; [|tauto].
  destruct (Z.ltb_spec (open o) 0); [tauto|].
  cbn [negb orb]. rewrite bool_decide_true by eauto. cbn [negb].
  destruct (Z.ltb_spec (fork o) 0); [lia|].
  by destruct (Z.gtb_spec (fork o) 0); [|lia].
Qed.

(** C8.  When a step of the session establishment fails (pty allocation,
    grant, unlock, slave name, slave open or fork), [run] returns a
    negative value and the descriptors open afterwards are those that
    were open before: the master, and the slave when it was opened, have
    been closed again. *)
Theorem run_failure_closes (o : os) (fds : gset Z) :
  fresh o fds → fails o →
  ∃ ret child, run o fds = Returns ret child fds ∧ ret < 0.
Proof.
  unfold fresh, fails, run. intros [Hm Hs] H.
  destruct (Z.ltb_spec (posix_openpt o) 0) as [|Hm0];
    [by exists (-1), None|].
  specialize (Hm Hm0).
  destruct (Z.eqb_spec (grantpt o) 0);
    [|exists (-1), None; by rewrite close_opened].
  destruct (Z.eqb_spec (unlockpt o) 0);
    [|exists (-1), None; by rewrite close_opened].
  destruct (ptsname o) as [dev|] eqn:Hdev;
    [|exists (-1), None; by rewrite close_opened].
  destruct (Z.ltb_spec (open o) 0) as [|Hs0];
    [exists (-1), None; cbn [negb orb];
     rewrite bool_decide_true by eauto; by rewrite close_opened|].
  specialize (Hs Hs0).
  cbn [negb orb]. rewrite bool_decide_true by eauto. cbn [negb].
  destruct (Z.ltb_spec (fork o) 0) as [Hf|Hf].
  - exists (-1), (Some (fork o)). split; [|done].
    f_equal. by apply close_opened_two.
  - exfalso. destruct H as [?|[?|[?|[?|[?|?]]]]]; (lia || done).
Qed.

Lemma run_failure_closes_witness :
  ∃ ret child,
    run (Examples.os_with_fork (-1)) Examples.std_fds
    = Returns ret child Examples.std_fds ∧ ret < 0.
Proof.
  apply run_failure_closes.
  - split; intros _; simpl; unfold Examples.std_fds;
      rewrite !not_elem_of_union, !not_elem_of_singleton; lia.
  - unfold fails. simpl. lia.
Defined.

End PtyFacts.

(** * Properties of [main] *)
Section MainFacts.

Import Main.

Variable termios : Type.
Variable cfmakeraw : termios → termios.
Variable WIFEXITED : Z → bool.
Variable WEXITSTATUS : Z → Z.

Local Abbreviation main := (Main.main cfmakeraw WIFEXITED WEXITSTATUS).

Lemma main_usage e w : argc e < 2 → main e w = (Exit 1, emit Usage w).
Proof. intros H. unfold Main.main. by destruct (Z.ltb_spec (argc e) 2); [|lia]. Qed.

Lemma main_cannot_run e w :
  2 <= argc e → Pty.fails (pty e) →
  ∃ s, main e w = (Exit 1, emit (Perror "cannot run program") (with_fds s w)).
Proof.
  intros Hargc Hfails. unfold Main.main.
  destruct (Z.ltb_spec (argc e) 2); [lia|].
  destruct (run_fails_returns (pty e) (fds w) Hfails) as (child & s & ->).
  by exists s.
Qed.

Lemma main_session e w :
  reaches_session e →
  ∃ s,
    main e w =
      (Exit (watched_status WIFEXITED WEXITSTATUS e),
       {| tty := tty w; fds := s;
          trace := trace w ++
            session_events cfmakeraw e (tty w) (Pty.posix_openpt (pty e))
              (Some (Pty.fork (pty e))) |}).
Proof.
  intros (Hargc & Hok & Hfork). unfold Main.main.
  destruct (Z.ltb_spec (argc e) 2); [lia|].
  destruct (run_parent (pty e) (fds w) Hok Hfork) as [Hm ->].
  destruct (Z.ltb_spec (Pty.posix_openpt (pty e)) 0); [lia|].
  eexists. unfold session_events, watched_status.
  destruct (isatty0 e), (waitpid e) as [st|];
    unfold tcgetattr, tcsetattr, emit, with_fds; cbn [tty fds trace];
    rewrite <- ?app_assoc; reflexivity.
Qed.

(** C7.  [main] exits with 1 when no target command is given and when the
    session cannot be established; when the session is reached it exits
    with the child's exit value if the child exited normally, and with 1
    if the child ended in another way or [waitpid] failed. *)
Theorem main_exit_code (e : env) (w : world termios) :
  (argc e < 2 → (main e w).1 = Exit 1) ∧
  (2 <= argc e → Pty.fails (pty e) → (main e w).1 = Exit 1) ∧
  (reaches_session e →
     (∀ s, waitpid e = Some s → WIFEXITED s = true →
           (main e w).1 = Exit (WEXITSTATUS s)) ∧
     (∀ s, waitpid e = Some s → WIFEXITED s = false →
           (main e w).1 = Exit 1) ∧
     (waitpid e = None → (main e w).1 = Exit 1)).
Proof.
  split; [|split].
  - intros H. by rewrite main_usage.
  - intros H1 H2. by destruct (main_cannot_run e w H1 H2) as [s ->].
  - intros H. destruct (main_session e w H) as [s ->].
    unfold watched_status. cbn [fst].
    split; [|split].
    + by intros st -> ->.
    + by intros st -> ->.
    + by intros ->.
Qed.

(** C9.  If descriptor 0 is a terminal, then on every execution that
    reaches the session, whether the child exits or [waitpid] fails, the
    calls on its attributes are one [tcgetattr], then the [tcsetattr] that
    enters raw mode, then one [tcsetattr] with the attributes that were
    read, which is the last thing [main] does, and the terminal ends with
    the attributes it started with.  If descriptor 0 is not a terminal,
    then on every execution, whether it reaches the session or not, there
    is no such call and the attributes are not changed. *)
Theorem main_terminal_attributes (e : env) (w : world termios) :
  (reaches_session e → isatty0 e = true →
     tc_events (main e w).2 =
       tc_events w ++
       [Tcgetattr (tty w); Tcsetattr (cfmakeraw (tty w)); Tcsetattr (tty w)] ∧
     last (trace (main e w).2) = Some (Tcsetattr (tty w)) ∧
     tty (main e w).2 = tty w) ∧
  (isatty0 e = false →
     tc_events (main e w).2 = tc_events w ∧
     tty (main e w).2 = tty w).
Proof.
  split.
  - intros H Htty. destruct (main_session e w H) as [s ->]. cbn [snd tty].
    unfold tc_events, session_events. cbn [trace]. rewrite Htty.
    split; [|split; [|done]].
    + rewrite List.filter_app. destruct (waitpid e); reflexivity.
    + rewrite !app_assoc. apply last_snoc.
  - intros Htty. unfold Main.main, tc_events. rewrite Htty.
    destruct (argc e <? 2).
    { cbn [snd emit trace tty]. rewrite List.filter_app. simpl.
      by rewrite app_nil_r. }
    destruct (Pty.run (pty e) (fds w)) as [master child s|s|c s].
    + destruct (master <? 0).
      { cbn [snd emit with_fds trace tty]. rewrite List.filter_app. simpl.
        by rewrite app_nil_r. }
      destruct (waitpid e) as [st|];
        cbn [snd emit with_fds trace tty];
        rewrite !List.filter_app; simpl; by rewrite !app_nil_r.
    + done.
    + cbn [snd emit with_fds trace tty]. rewrite List.filter_app. simpl.
      by rewrite app_nil_r.
Qed.

End MainFacts.

Lemma reaches_session_example tty wait :
  Main.reaches_session (Examples.env_with tty wait).
Proof.
  split; [simpl; lia|]. split; [|simpl; lia].
  unfold Pty.fails. simpl. intros [?|[?|[?|[?|[?|?]]]]]; (lia || done).
Qed.

Lemma main_exit_code_witness :
  (Main.main Examples.raw Examples.wifexited Examples.wexitstatus
     (Examples.env_with false (Some 768)) Examples.cooked_world).1
  = Main.Exit 3.
Proof.
  refine (proj1 (proj2 (proj2 (main_exit_code Z Examples.raw
            Examples.wifexited Examples.wexitstatus
            (Examples.env_with false (Some 768)) Examples.cooked_world))
            (reaches_session_example false (Some 768))) 768 _ _).
  - reflexivity.
  - reflexivity.
Defined.

Lemma main_terminal_attributes_witness :
  (Main.tc_events
     (Main.main Examples.raw Examples.wifexited Examples.wexitstatus
        (Examples.env_with true None) Examples.cooked_world).2
   = [Main.Tcgetattr 0; Main.Tcsetattr 1; Main.Tcsetattr 0] ∧
   last (Main.trace
     (Main.main Examples.raw Examples.wifexited Examples.wexitstatus
        (Examples.env_with true None) Examples.cooked_world).2)
   = Some (Main.Tcsetattr 0) ∧
   Main.tty
     (Main.main Examples.raw Examples.wifexited Examples.wexitstatus
        (Examples.env_with true None) Examples.cooked_world).2
   = 0) ∧
  (Main.tc_events
     (Main.main Examples.raw Examples.wifexited Examples.wexitstatus
        {| Main.argc := 2; Main.pty := Examples.os_with_fork (-1);
           Main.isatty0 := false; Main.waitpid := None |}
        Examples.cooked_world).2
   = [] ∧
   Main.tty
     (Main.main Examples.raw Examples.wifexited Examples.wexitstatus
        {| Main.argc := 2; Main.pty := Examples.os_with_fork (-1);
           Main.isatty0 := false; Main.waitpid := None |}
        Examples.cooked_world).2
   = 0).
Proof.
  split.
  - refine (proj1 (main_terminal_attributes Z Examples.raw
              Examples.wifexited Examples.wexitstatus
              (Examples.env_with true None) Examples.cooked_world)
              (reaches_session_example true None) _).
    reflexivity.
  - refine (proj2 (main_terminal_attributes Z Examples.raw
              Examples.wifexited Examples.wexitstatus
              {| Main.argc := 2; Main.pty := Examples.os_with_fork (-1);
                 Main.isatty0 := false; Main.waitpid := None |}
              Examples.cooked_world) _).
    reflexivity.
Defined.

(** * Further properties of the CSI filter *)
Section CsiMore.

Import Csi.

Lemma csi_step_sublist st c :
  (csi_step st c).2 ++ replicate (pending (csi_step st c).1) ESC
    `sublist_of` replicate (pending st) ESC ++ [c].
Proof.
  destruct st; simpl.
  - destruct (Z.eqb_spec c 27) as [->|]; simpl; reflexivity.
  - destruct (Z.eqb_spec c 91) as [->|]; simpl.
    + apply sublist_nil_l.
    + reflexivity.
  - destruct ((64 <=? c) && (c <=? 126)); simpl; apply sublist_nil_l.
Qed.

Lemma csi_scan_sublist l : ∀ st,
  (csi_scan st l).2 `sublist_of` replicate (pending st) ESC ++ l.
Proof.
  induction l as [|c l IH]; intros st.
  - simpl. apply sublist_nil_l.
  - rewrite csi_scan_cons. cbn [snd].
    transitivity ((csi_step st c).2 ++
                  replicate (pending (csi_step st c).1) ESC ++ l).
    + apply sublist_app; [reflexivity | apply IH].
    + rewrite app_assoc.
      change (replicate (pending st) ESC ++ c :: l)
        with (replicate (pending st) ESC ++ [c] ++ l).
      rewrite (app_assoc _ [c]).
      apply sublist_app; [apply csi_step_sublist | reflexivity].
Qed.

(** X1.  The filter only removes chars: what it emits for a chunk is a
    subsequence of the chunk, preceded by the delayed ESC when the chunk
    is entered in [ESCAPE]; so for a stream, from [INIT] and however it is
    cut into chunks, the output is a subsequence of the input. *)
Theorem csi_output_sublist :
  (∀ st ibuf,
     (csi_scan st ibuf).2 `sublist_of` replicate (pending st) ESC ++ ibuf) ∧
  (∀ chunks, (csi_chunks INIT chunks).2 `sublist_of` concat chunks).
Proof.
  split.
  - intros st ibuf. apply csi_scan_sublist.
  - intros chunks. rewrite csi_chunks_concat.
    apply (csi_scan_sublist (concat chunks) INIT).
Qed.

Lemma csi_step_stable st c :
  csi_scan INIT (csi_step st c).2 = (INIT, (csi_step st c).2).
Proof.
  destruct st; simpl.
  - destruct (Z.eqb_spec c 27); simpl; [done|].
    by destruct (Z.eqb_spec c 27).
  - destruct (Z.eqb_spec c 91); simpl; [done|].
    by destruct (Z.eqb_spec c 91).
  - by destruct ((64 <=? c) && (c <=? 126)).
Qed.

Lemma csi_scan_stable l : ∀ st,
  csi_scan INIT (csi_scan st l).2 = (INIT, (csi_scan st l).2).
Proof.
  induction l as [|c l IH]; intros st; [done|].
  rewrite csi_scan_cons. cbn [snd].
  rewrite csi_scan_app, csi_step_stable. cbn [fst snd].
  by rewrite IH.
Qed.

(** X2.  What the filter emits is left alone by a second filter: run from
    [INIT] on the output of any chunks, from any state, the filter emits
    that output unchanged and ends in [INIT]. *)
Theorem csi_output_stable (st : state) (chunks : list (list char)) :
  csi_scan INIT (csi_chunks st chunks).2 = (INIT, (csi_chunks st chunks).2).
Proof. rewrite csi_chunks_concat. apply csi_scan_stable. Qed.

End CsiMore.

(** * Further properties of [safe_write] and [safe_read] *)
Section SafeIoMore.

Import SafeWrite SafeRead Relay.

Lemma take_drop_add (mem : list char) (off n e : Z) :
  0 <= off → 0 <= n → 0 <= e →
  take (Z.to_nat n) (drop (Z.to_nat off) mem) ++
  take (Z.to_nat e) (drop (Z.to_nat (off + n)) mem) =
  take (Z.to_nat (n + e)) (drop (Z.to_nat off) mem).
Proof.
  intros Hoff Hn He.
  rewrite (Z2Nat.inj_add off n), (Z2Nat.inj_add n e) by lia.
  rewrite <- drop_drop. apply take_take_drop.
Qed.

Lemma safe_write_loop_outcome ans : ∀ mem count off avail received log,
  0 <= off → off + avail = count →
  (Z.to_nat avail ≤ progress ans)%nat →
  ∃ r fd' e,
    safe_write_loop ans mem count off avail received log = Some (r, fd') ∧
    0 <= e ∧
    sink fd' = received ++ take (Z.to_nat e) (drop (Z.to_nat off) mem) ∧
    ((r = count ∧ avail <= e ∧ (0 < avail → e < avail + count) ∧
      (avail <= 0 → e = 0)) ∨
     (r = -1 ∧ e < avail)).
Proof.
  induction ans as [|a ans IH]; intros mem count off avail received log
    Hoff Hsum Hprog.
  - simpl in Hprog. rewrite safe_write_loop_done by lia.
    exists count, {| answers := []; sink := received; calls := log |}, 0.
    simpl. rewrite app_nil_r. split; [done|]. split; [done|].
    split; [done|]. left. lia.
  - destruct (Z.leb_spec avail 0) as [Hav|Hav].
    { rewrite safe_write_loop_done by lia.
      exists count, {| answers := a :: ans; sink := received; calls := log |}, 0.
      simpl. rewrite app_nil_r. split; [done|]. split; [done|].
      split; [done|]. left. lia. }
    cbn [safe_write_loop].
    destruct (Z.leb_spec avail 0) as [|_]; [lia|].
    destruct a as [e|k]; cbn [write].
    + cbn [Z.ltb Z.compare andb]. simpl in Hprog.
      destruct (Z.eqb_spec e EINTR) as [He|He].
      * destruct (IH mem count off avail received (log ++ [(off, count)])
                    Hoff Hsum Hprog) as (r & fd' & w & E & Hw & Hs & Hr).
        by exists r, fd', w.
      * eexists (-1), _, 0. split; [reflexivity|]. simpl.
        rewrite app_nil_r. split; [done|]. split; [done|]. right. lia.
    + set (n := Z.min (Z.of_nat k) count).
      assert (Hn : 0 <= n <= count) by lia.
      destruct (Z.ltb_spec n 0) as [|_]; [lia|]. cbn [andb].
      destruct (IH mem count (off + n) (avail - n)
                  (received ++ take (Z.to_nat n) (drop (Z.to_nat off) mem))
                  (log ++ [(off, count)]))
        as (r & fd' & w & E & Hw & Hs & Hr); [lia|lia| |].
      { destruct k as [|k]; simpl in Hprog; [lia|].
        assert (1 <= n) by lia. lia. }
      exists r, fd', (n + w). split; [exact E|]. split; [lia|].
      split.
      { rewrite Hs, <- app_assoc. f_equal. apply take_drop_add; lia. }
      destruct Hr as [(-> & H1 & H2 & H3)|(-> & H1)]; [left|right; lia].
      split; [done|].
      destruct (Z.leb_spec (avail - n) 0); [rewrite H3 by lia|]; lia.
Qed.

(** X3.  For a [count] that fits [ssize_t], and an array that holds
    every request that can be made (the [count] chars of the buffer and
    [count - 1] more): given enough answers that bring it forward (one per
    char of [count] is always enough), [safe_write] returns, and it
    returns [count] or -1, never the number of a short write.  The
    descriptor has received consecutive chars of the array from [buf] on:
    at least [count] of them and fewer than twice [count] when [count] is
    returned, fewer than [count] when -1 is. *)
Theorem safe_write_outcome (fd : fdesc) (mem : list char) (count : Z) :
  0 <= count <= POSIX_SSIZE_MAX →
  2 * count - 1 <= Z.of_nat (length mem) →
  (Z.to_nat count ≤ progress (answers fd))%nat →
  ∃ r fd' total,
    safe_write fd mem count = Some (r, fd') ∧
    0 <= total <= Z.of_nat (length mem) ∧
    sink fd' = sink fd ++ take (Z.to_nat total) mem ∧
    length (sink fd') = (length (sink fd) + Z.to_nat total)%nat ∧
    ((r = count ∧ count <= total ∧ (0 < count → total < 2 * count) ∧
      (count = 0 → total = 0)) ∨
     (r = -1 ∧ total < count)).
Proof.
  intros Hcount Hmem Hprog. unfold safe_write.
  destruct (safe_write_loop_outcome (answers fd) mem count 0 count
              (sink fd) (calls fd)) as (r & fd' & e & E & He & Hs & Hr);
    [lia|lia|done|].
  rewrite drop_0 in Hs.
  assert (Hle : e <= Z.of_nat (length mem)).
  { destruct Hr as [(_ & H1 & H2 & H3)|(_ & H1)]; [|lia].
    destruct (Z.eq_dec count 0) as [H0|H0]; [rewrite H3 by lia; lia|].
    specialize (H2 ltac:(lia)). lia. }
  exists r, fd', e. split; [exact E|]. split; [lia|].
  split; [exact Hs|]. split.
  { rewrite Hs, length_app, length_take. lia. }
  destruct Hr as [(-> & H1 & H2 & H3)|(-> & H1)]; [left|right; done].
  repeat split; lia.
Qed.

Lemma safe_write_outcome_witness :
  ∃ r fd' total,
    safe_write (fresh_fd [WTake 1; WFail EINTR; WTake 2])
      (chars_of_string "abX") 2 = Some (r, fd') ∧
    0 <= total <= Z.of_nat (length (chars_of_string "abX")) ∧
    sink fd' = [] ++ take (Z.to_nat total) (chars_of_string "abX") ∧
    length (sink fd') = (length (@nil Z) + Z.to_nat total)%nat ∧
    ((r = 2 ∧ 2 <= total ∧ (0 < 2 → total < 2 * 2) ∧ (2 = 0 → total = 0)) ∨
     (r = -1 ∧ total < 2)).
Proof.
  apply (safe_write_outcome (fresh_fd [WTake 1; WFail EINTR; WTake 2])
           (chars_of_string "abX") 2).
  - unfold POSIX_SSIZE_MAX. lia.
  - simpl. lia.
  - simpl. lia.
Defined.

Lemma safe_write_interrupts j : ∀ ans mem count received log,
  0 < count →
  safe_write {| answers := replicate j (WFail EINTR) ++ ans;
                sink := received; calls := log |} mem count =
  safe_write {| answers := ans; sink := received;
                calls := log ++ replicate j (0, count) |} mem count.
Proof.
  induction j as [|j IH]; intros ans mem count received log Hc.
  - simpl. by rewrite app_nil_r.
  - cbn [replicate app]. rewrite safe_write_eintr by done.
    rewrite IH by done. by rewrite <- app_assoc.
Qed.

(** X4.  Interrupted [write] calls are repeated and leave no trace in the
    output: for a buffer of [count] chars, [count] fitting [ssize_t],
    after any number of them a descriptor that takes the request whole
    receives the [count] chars of the buffer once and [safe_write] returns
    [count], having made one call more than there were interruptions,
    each for [count] chars from the start of the buffer. *)
Theorem safe_write_after_interrupts (j k : nat) (rest : list wres)
  (mem received : list char) (count : Z) (log : list (Z * Z)) :
  0 < count <= POSIX_SSIZE_MAX → count <= Z.of_nat (length mem) →
  count <= Z.of_nat k →
  safe_write {| answers := replicate j (WFail EINTR) ++ WTake k :: rest;
                sink := received; calls := log |} mem count =
    Some (count, {| answers := rest;
                    sink := received ++ take (Z.to_nat count) mem;
                    calls := log ++ replicate (S j) (0, count) |}) ∧
  length (take (Z.to_nat count) mem) = Z.to_nat count.
Proof.
  intros Hc Hmem Hk. split; [|rewrite length_take; lia].
  rewrite safe_write_interrupts, safe_write_full by lia.
  do 3 f_equal. rewrite <- app_assoc. f_equal.
  change [(0, count)] with (replicate 1 (0, count)).
  rewrite <- replicate_add. f_equal. lia.
Qed.

Lemma safe_write_after_interrupts_witness :
  safe_write (fresh_fd [WFail EINTR; WFail EINTR; WTake 512])
    (chars_of_string "hello") 5 =
    Some (5, {| answers := []; sink := chars_of_string "hello";
                calls := [(0, 5); (0, 5); (0, 5)] |}) ∧
  length (take (Z.to_nat 5) (chars_of_string "hello")) = Z.to_nat 5.
Proof.
  apply (safe_write_after_interrupts 2 512 [] (chars_of_string "hello") []
           5 []).
  - unfold POSIX_SSIZE_MAX. lia.
  - simpl. lia.
  - lia.
Defined.

(** X5.  A failure of [write] other than an interruption ends
    [safe_write] at once with -1, also after interruptions, for a buffer
    of [count] chars, [count] fitting [ssize_t]: the descriptor has
    received nothing and its later answers are not used. *)
Theorem safe_write_hard_error (j : nat) (e : Z) (rest : list wres)
  (mem received : list char) (count : Z) (log : list (Z * Z)) :
  0 < count <= POSIX_SSIZE_MAX → count <= Z.of_nat (length mem) →
  e ≠ EINTR →
  safe_write {| answers := replicate j (WFail EINTR) ++ WFail e :: rest;
                sink := received; calls := log |} mem count =
  Some (-1, {| answers := rest; sink := received;
               calls := log ++ replicate (S j) (0, count) |}).
Proof.
  intros Hc Hmem He. rewrite safe_write_interrupts, safe_write_error by lia || done.
  do 3 f_equal. rewrite <- app_assoc. f_equal.
  change [(0, count)] with (replicate 1 (0, count)).
  rewrite <- replicate_add. f_equal. lia.
Qed.

Lemma safe_write_hard_error_witness :
  safe_write (fresh_fd [WFail EINTR; WFail 32; WTake 512])
    (chars_of_string "hello") 5 =
  Some (-1, {| answers := [WTake 512]; sink := [];
               calls := [(0, 5); (0, 5)] |}).
Proof.
  apply (safe_write_hard_error 1 32 [WTake 512] (chars_of_string "hello") []
           5 []).
  - unfold POSIX_SSIZE_MAX. lia.
  - simpl. lia.
  - discriminate.
Defined.

End SafeIoMore.

(** * Properties of [safe_read] and of the relay loops *)
Section RelayFacts.

Import SafeWrite SafeRead Relay.

Lemma read_buffer (data buf : list char) (m : nat) :
  (m ≤ length data)%nat → (m ≤ length buf)%nat →
  length (take m data ++ drop m buf) = length buf ∧
  take m (take m data ++ drop m buf) = take m data ∧
  drop m (take m data ++ drop m buf) = drop m buf.
Proof.
  intros Hd Hb.
  assert (Hm : length (take m data) = m) by (rewrite length_take; lia).
  split; [rewrite length_app, length_drop; lia|]. split.
  - by rewrite take_app_length'.
  - by rewrite drop_app_length'.
Qed.

(** X6.  Interrupted [read] calls are repeated: [safe_read] returns what
    the first call that is not interrupted returns, -1 for a failure and
    otherwise the number [n] of chars read, at most [count] and 0 only at
    the end of the stream or when the descriptor hands over nothing.  The
    [n] chars are the next ones of the stream and are at the start of
    [buf]; the rest of [buf] and its size are unchanged. *)
Theorem safe_read_after_interrupts (j : nat) (r : rres) (rest : list rres)
  (data buf : list char) (count : nat) :
  r ≠ RFail EINTR → (count ≤ length buf)%nat →
  ∃ n buf',
    safe_read {| ranswers := replicate j (RFail EINTR) ++ r :: rest;
                 stream := data |} buf count =
      Some (n, buf', {| ranswers := rest;
                        stream := drop (Z.to_nat n) data |}) ∧
    -1 <= n <= Z.of_nat count ∧ n <= Z.of_nat (length data) ∧
    (n = -1 ↔ ∃ e, r = RFail e) ∧
    length buf' = length buf ∧
    take (Z.to_nat n) buf' = take (Z.to_nat n) data ∧
    drop (Z.to_nat n) buf' = drop (Z.to_nat n) buf.
Proof.
  intros Hr Hcount. unfold safe_read. cbn [ranswers stream].
  induction j as [|j IH]; [|exact IH].
  cbn [replicate app safe_read_loop]. destruct r as [e|k]; cbn [read].
  - cbn [Z.ltb Z.compare andb].
    destruct (Z.eqb_spec e EINTR) as [->|He]; [done|].
    exists (-1), buf. simpl. repeat split; try lia; eauto.
  - set (m := (k `min` (count `min` length data))%nat).
    destruct (Z.ltb_spec (Z.of_nat m) 0) as [|_]; [lia|]. cbn [andb].
    exists (Z.of_nat m), (take m data ++ drop m buf). rewrite Nat2Z.id.
    destruct (read_buffer data buf m) as (H1 & H2 & H3); [lia|lia|].
    repeat split; try lia; try done.
    intros [e He]. discriminate.
Qed.

Lemma safe_read_after_interrupts_witness :
  ∃ n buf',
    safe_read {| ranswers := replicate 2 (RFail EINTR) ++ RGive 3 :: [];
                 stream := chars_of_string "hello" |}
      (chars_of_string "........") 4 =
      Some (n, buf', {| ranswers := [];
                        stream := drop (Z.to_nat n)
                                    (chars_of_string "hello") |}) ∧
    -1 <= n <= Z.of_nat 4 ∧
    n <= Z.of_nat (length (chars_of_string "hello")) ∧
    (n = -1 ↔ ∃ e, RGive 3 = RFail e) ∧
    length buf' = length (chars_of_string "........") ∧
    take (Z.to_nat n) buf' = take (Z.to_nat n) (chars_of_string "hello") ∧
    drop (Z.to_nat n) buf' = drop (Z.to_nat n) (chars_of_string "........").
Proof.
  apply (safe_read_after_interrupts 2 (RGive 3) [] (chars_of_string "hello")
           (chars_of_string "........") 4); [discriminate | simpl; lia].
Defined.

(** What one [safe_read] does when an answer that is no failure is still
    to come. *)
Lemma safe_read_loop_cases ans : ∀ data buf count,
  (0 < gives ans)%nat →
  ∃ n buf' ans',
    safe_read_loop ans data buf count =
      Some (n, buf', {| ranswers := ans';
                        stream := drop (Z.to_nat n) data |}) ∧
    (length ans' < length ans)%nat ∧
    ((n = -1 ∧ ¬ Forall willing ans) ∨
     (∃ k, n = Z.of_nat (k `min` (count `min` length data)) ∧
           buf' = take (Z.to_nat n) data ++ drop (Z.to_nat n) buf ∧
           (gives ans ≤ S (gives ans'))%nat ∧
           (Forall willing ans → k ≠ 0%nat ∧ Forall willing ans'))).
Proof.
  induction ans as [|r ans IH]; intros data buf count Hg; [simpl in Hg; lia|].
  cbn [safe_read_loop]. destruct r as [e|k]; cbn [read].
  - cbn [Z.ltb Z.compare andb]. simpl in Hg.
    destruct (Z.eqb_spec e EINTR) as [->|He].
    + destruct (IH data buf count Hg) as (n & buf' & ans' & -> & Hl & Hc).
      exists n, buf', ans'. split; [done|]. split; [simpl; lia|].
      destruct Hc as [[-> Hw]|(k & -> & -> & Hgv & Hw)]; [left|right].
      * split; [done|]. intros Hall. apply Hw.
        by apply Forall_cons in Hall as [_ ?].
      * exists k. repeat split; try done.
        -- by apply Hw; apply Forall_cons in H as [_ ?].
        -- by apply Hw; apply Forall_cons in H as [_ ?].
    + exists (-1), buf, ans. simpl. split; [done|]. split; [lia|]. left.
      split; [done|]. intros Hall. apply Forall_cons in Hall as [Hw _].
      destruct Hw as [[= ->]|[k [=]]]. done.
  - set (m := (k `min` (count `min` length data))%nat).
    destruct (Z.ltb_spec (Z.of_nat m) 0) as [|_]; [lia|]. cbn [andb].
    exists (Z.of_nat m), (take m data ++ drop m buf), ans.
    rewrite Nat2Z.id. split; [done|]. split; [simpl; lia|]. right.
    exists k. repeat split; try done.
    + intros ->. apply Forall_cons in H as [[[=]|[k' [=]]] _].
    + by apply Forall_cons in H as [_ ?].
Qed.

Lemma no_filter_loop_copies fuel : ∀ ans data buf out,
  (length ans < fuel)%nat → length buf = BUFSIZE →
  (length data < gives ans)%nat →
  Forall takes_all (answers out) →
  (length ans ≤ length (answers out))%nat →
  ∃ inp' out' copied,
    no_filter_loop fuel {| ranswers := ans; stream := data |} buf out =
      Some (inp', out') ∧
    data = copied ++ stream inp' ∧
    sink out' = sink out ++ copied ∧
    (Forall willing ans → stream inp' = []).
Proof.
  induction fuel as [|fuel IH]; intros ans data buf out Hfuel Hbuf Hg Hout Hlen;
    [lia|].
  cbn [no_filter_loop]. unfold safe_read. cbn [ranswers stream].
  destruct (safe_read_loop_cases ans data buf BUFSIZE)
    as (n & buf1 & ans1 & -> & Hl & Hc); [lia|].
  cbn [mbind option_bind].
  destruct Hc as [[-> Hw]|(k & Hn & Hbuf1 & Hgv & Hw)].
  - simpl. eexists _, out, []. split; [reflexivity|]. simpl.
    rewrite app_nil_r. done.
  - set (m := (k `min` (BUFSIZE `min` length data))%nat) in *.
    subst n. rewrite Nat2Z.id in *.
    destruct (Nat.eq_dec m 0%nat) as [Hm0|Hm0].
    + rewrite Hm0. simpl. eexists _, out, []. split; [reflexivity|]. simpl.
      rewrite app_nil_r. split; [done|]. split; [done|].
      intros Hall. destruct (Hw Hall) as [Hk _].
      rewrite drop_0. apply length_zero_iff_nil. unfold m, BUFSIZE in *. lia.
    + destruct (Z.gtb_spec (Z.of_nat m) 0) as [_|]; [|lia].
      destruct out as [wans snk log]. cbn [answers sink] in *.
      destruct wans as [|a wans]; [simpl in Hlen; lia|].
      apply Forall_cons in Hout as [(k' & -> & Hk') Hout].
      rewrite safe_write_full by lia. cbn [mbind option_bind].
      rewrite Z.eqb_refl, Nat2Z.id.
      destruct (read_buffer data buf m) as (Hb1 & Hb2 & _); [lia|lia|].
      rewrite <- Hbuf1 in Hb1, Hb2.
      destruct (IH ans1 (drop m data) buf1
                  {| answers := wans; sink := snk ++ take m buf1;
                     calls := log ++ [(0, Z.of_nat m)] |})
        as (inp' & out' & copied & -> & Hd & Hs & Hend);
        [lia|congruence|rewrite length_drop; lia|done|simpl in *; lia|].
      exists inp', out', (take m data ++ copied).
      split; [done|]. split; [|split].
      * by rewrite <- app_assoc, <- Hd, take_drop.
      * rewrite Hs. cbn [sink]. by rewrite Hb2, <- app_assoc.
      * intros Hall. apply Hend. by apply Hw.
Qed.

(** X7.  [no_filter] copies the stream unchanged.  With an output that
    takes every request whole, and an input that has more answers that
    are no failures than the stream has chars, the loop ends, what it has
    written is what it has read, in order and however the reads cut the
    stream, and the rest of the stream is unread.  When no read fails or
    comes back empty before the end, the whole stream is copied. *)
Theorem no_filter_copies (inp : rdesc) (buf : list char) (out : fdesc) :
  length buf = BUFSIZE →
  (length (stream inp) < gives (ranswers inp))%nat →
  Forall takes_all (answers out) →
  (length (ranswers inp) ≤ length (answers out))%nat →
  ∃ inp' out' copied,
    no_filter inp buf out = Some (inp', out') ∧
    stream inp = copied ++ stream inp' ∧
    sink out' = sink out ++ copied ∧
    (Forall willing (ranswers inp) →
     stream inp' = [] ∧ sink out' = sink out ++ stream inp).
Proof.
  intros Hbuf Hg Hout Hlen. unfold no_filter. destruct inp as [ans data].
  cbn [ranswers stream] in *.
  destruct (no_filter_loop_copies (S (length ans)) ans data buf out)
    as (inp' & out' & copied & E & Hd & Hs & Hend); [lia|done..|].
  exists inp', out', copied. split; [done|]. split; [done|]. split; [done|].
  intros Hall. specialize (Hend Hall). split; [done|].
  rewrite Hend, app_nil_r in Hd. by rewrite Hs, Hd.
Qed.

Lemma no_filter_copies_witness :
  ∃ inp' out' copied,
    no_filter {| ranswers := [RGive 1; RFail EINTR; RGive 512; RGive 512];
                 stream := chars_of_string "hi" |}
      (replicate BUFSIZE 0) (fresh_fd (replicate 4 (WTake BUFSIZE)))
      = Some (inp', out') ∧
    chars_of_string "hi" = copied ++ stream inp' ∧
    sink out' = [] ++ copied ∧
    (Forall willing [RGive 1; RFail EINTR; RGive 512; RGive 512] →
     stream inp' = [] ∧ sink out' = [] ++ chars_of_string "hi").
Proof.
  apply (no_filter_copies
           {| ranswers := [RGive 1; RFail EINTR; RGive 512; RGive 512];
              stream := chars_of_string "hi" |}
           (replicate BUFSIZE 0) (fresh_fd (replicate 4 (WTake BUFSIZE)))).
  - apply length_replicate.
  - vm_compute. lia.
  - apply Forall_replicate. exists BUFSIZE. split; [done|lia].
  - simpl. lia.
Defined.

Lemma csi_filter_loop_filters fuel : ∀ ans data st ibuf obuf out,
  (length ans < fuel)%nat →
  length ibuf = (BUFSIZE - 1)%nat → length obuf = BUFSIZE →
  (length data < gives ans)%nat →
  Forall takes_all (answers out) →
  (length ans ≤ length (answers out))%nat →
  ∃ inp' out' copied,
    Relay.csi_filter_loop fuel {| ranswers := ans; stream := data |} st
      ibuf obuf out = Some (inp', out') ∧
    data = copied ++ stream inp' ∧
    sink out' = sink out ++ (Csi.csi_scan st copied).2 ∧
    (Forall willing ans → stream inp' = []).
Proof.
  induction fuel as [|fuel IH];
    intros ans data st ibuf obuf out Hfuel Hibuf Hobuf Hg Hout Hlen; [lia|].
  cbn [Relay.csi_filter_loop]. unfold safe_read. cbn [ranswers stream].
  destruct (safe_read_loop_cases ans data ibuf (BUFSIZE - 1))
    as (n & ibuf1 & ans1 & -> & Hl & Hc); [lia|].
  cbn [mbind option_bind].
  destruct Hc as [[-> Hw]|(k & Hn & Hibuf1 & Hgv & Hw)].
  - simpl. eexists _, out, []. split; [reflexivity|]. simpl.
    rewrite app_nil_r. done.
  - set (m := (k `min` ((BUFSIZE - 1) `min` length data))%nat) in *.
    subst n. rewrite Nat2Z.id in *.
    destruct (Nat.eq_dec m 0%nat) as [Hm0|Hm0].
    + rewrite Hm0. simpl. eexists _, out, []. split; [reflexivity|]. simpl.
      rewrite app_nil_r. split; [done|]. split; [done|].
      intros Hall. destruct (Hw Hall) as [Hk _].
      rewrite drop_0. apply length_zero_iff_nil. unfold m, BUFSIZE in *. lia.
    + destruct (Z.gtb_spec (Z.of_nat m) 0) as [_|]; [|lia].
      destruct (read_buffer data ibuf m) as (Hb1 & Hb2 & _);
        [lia|unfold m; lia|].
      rewrite <- Hibuf1 in Hb1, Hb2. rewrite Hb2.
      assert (Hchunk : length (take m data) = m)
        by (rewrite length_take; lia).
      pose proof (csi_scan_length st (take m data)) as Hbound.
      destruct (csi_scan_buf_ok (take m data) st obuf 0)
        as (obuf1 & E & Hobuf1 & Ho).
      { rewrite Hchunk. unfold m, BUFSIZE in *.
        destruct st; cbn [Csi.pending]; lia. }
      rewrite Nat.add_0_l in E, Ho. simpl in Ho.
      rewrite E. cbn [mbind option_bind].
      destruct (Csi.csi_scan st (take m data)) as [st1 o1] eqn:Escan.
      cbn [fst snd] in *.
      assert (Hq : (length o1 ≤ BUFSIZE)%nat).
      { rewrite Hchunk in Hbound. unfold m, BUFSIZE in *.
        destruct st, st1; cbn [Csi.pending] in Hbound; lia. }
      remember (length o1) as q eqn:Eq. clear Eq.
      assert (Hsplit : ∀ copied,
                (Csi.csi_scan st (take m data ++ copied)).2 =
                o1 ++ (Csi.csi_scan st1 copied).2).
      { intros copied. by rewrite csi_scan_app, Escan. }
      destruct (Nat.eq_dec q 0%nat) as [->|Hq0].
      * rewrite safe_write_nothing. cbn [mbind option_bind]. simpl Z.eqb.
        destruct (IH ans1 (drop m data) st1 ibuf1 obuf1 out)
          as (inp' & out' & copied & -> & Hd & Hs & Hend);
          [lia|congruence|congruence|rewrite length_drop; lia|done|lia|].
        exists inp', out', (take m data ++ copied).
        split; [done|]. split; [|split].
        -- by rewrite <- app_assoc, <- Hd, take_drop.
        -- rewrite Hs, Hsplit, <- Ho. done.
        -- intros Hall. apply Hend. by apply Hw.
      * destruct out as [wans snk log]. cbn [answers sink] in *.
        destruct wans as [|a wans]; [simpl in Hlen; lia|].
        apply Forall_cons in Hout as [(k' & -> & Hk') Hout].
        rewrite safe_write_full by lia. cbn [mbind option_bind].
        rewrite Z.eqb_refl, Nat2Z.id.
        destruct (IH ans1 (drop m data) st1 ibuf1 obuf1
                    {| answers := wans; sink := snk ++ take q obuf1;
                       calls := log ++ [(0, Z.of_nat q)] |})
          as (inp' & out' & copied & -> & Hd & Hs & Hend);
          [lia|congruence|congruence|rewrite length_drop; lia|done|
           simpl in *; lia|].
        exists inp', out', (take m data ++ copied).
        split; [done|]. split; [|split].
        -- by rewrite <- app_assoc, <- Hd, take_drop.
        -- rewrite Hs, Hsplit. cbn [sink]. by rewrite Ho, <- app_assoc.
        -- intros Hall. apply Hend. by apply Hw.
Qed.

(** X8.  [csi_filter] writes the filtered stream, whatever the reads.
    With an output that takes every request whole, and an input that has
    more answers that are no failures than the stream has chars, the loop
    ends, the scanning loop never stores outside [obuf], and what has been
    written is the output of the filter, from [INIT], for the part of the
    stream that has been read: the places where the reads cut the stream
    do not show.  When no read fails or comes back empty before the end,
    that part is the whole stream. *)
Theorem csi_filter_filters (inp : rdesc) (ibuf obuf : list char)
  (out : fdesc) :
  length ibuf = (BUFSIZE - 1)%nat → length obuf = BUFSIZE →
  (length (stream inp) < gives (ranswers inp))%nat →
  Forall takes_all (answers out) →
  (length (ranswers inp) ≤ length (answers out))%nat →
  ∃ inp' out' copied,
    Relay.csi_filter inp ibuf obuf out = Some (inp', out') ∧
    stream inp = copied ++ stream inp' ∧
    sink out' = sink out ++ (Csi.csi_scan Csi.INIT copied).2 ∧
    (Forall willing (ranswers inp) →
     stream inp' = [] ∧
     sink out' = sink out ++ (Csi.csi_scan Csi.INIT (stream inp)).2).
Proof.
  intros Hibuf Hobuf Hg Hout Hlen. unfold Relay.csi_filter.
  destruct inp as [ans data]. cbn [ranswers stream] in *.
  destruct (csi_filter_loop_filters (S (length ans)) ans data Csi.INIT
              ibuf obuf out)
    as (inp' & out' & copied & E & Hd & Hs & Hend); [lia|done..|].
  exists inp', out', copied. split; [done|]. split; [done|]. split; [done|].
  intros Hall. specialize (Hend Hall). split; [done|].
  rewrite Hend, app_nil_r in Hd. by rewrite Hs, Hd.
Qed.

Lemma csi_filter_filters_witness :
  ∃ inp' out' copied,
    Relay.csi_filter
      {| ranswers := [RGive 1; RFail EINTR; RGive 2; RGive 511; RGive 511];
         stream := [65; 27; 91] |}
      (replicate (BUFSIZE - 1) 0) (replicate BUFSIZE 0)
      (fresh_fd (replicate 5 (WTake BUFSIZE)))
      = Some (inp', out') ∧
    [65; 27; 91] = copied ++ stream inp' ∧
    sink out' = [] ++ (Csi.csi_scan Csi.INIT copied).2 ∧
    (Forall willing [RGive 1; RFail EINTR; RGive 2; RGive 511; RGive 511] →
     stream inp' = [] ∧
     sink out' = [] ++ (Csi.csi_scan Csi.INIT [65; 27; 91]).2).
Proof.
  apply (csi_filter_filters
           {| ranswers := [RGive 1; RFail EINTR; RGive 2; RGive 511;
                           RGive 511];
              stream := [65; 27; 91] |}
           (replicate (BUFSIZE - 1) 0) (replicate BUFSIZE 0)
           (fresh_fd (replicate 5 (WTake BUFSIZE)))).
  - apply length_replicate.
  - apply length_replicate.
  - vm_compute. lia.
  - apply Forall_replicate. exists BUFSIZE. split; [done|lia].
  - simpl. lia.
Defined.

(** X9.  A failed write ends [no_filter]: when the read has brought
    chars and the [write] for them fails with an error other than an
    interruption, the loop ends at once; the chars just read are lost,
    nothing has been written, and nothing more is read. *)
Theorem no_filter_write_error (k : nat) (rest : list rres) (c : char)
  (data buf : list char) (e : Z) (wans : list wres) (received : list char)
  (log : list (Z * Z)) :
  e ≠ EINTR →
  no_filter {| ranswers := RGive (S k) :: rest; stream := c :: data |} buf
    {| answers := WFail e :: wans; sink := received; calls := log |} =
  Some ({| ranswers := rest;
           stream := drop (S k `min` (BUFSIZE `min` S (length data)))
                          (c :: data) |},
        {| answers := wans; sink := received;
           calls := log ++ [(0, Z.of_nat
                               (S k `min` (BUFSIZE `min` S (length data))))] |}).
Proof.
  intros He. unfold no_filter. cbn [ranswers length no_filter_loop].
  unfold safe_read. cbn [ranswers stream safe_read_loop read length].
  set (m := (S k `min` (BUFSIZE `min` S (length data)))%nat).
  assert (Hm : (0 < m)%nat) by (unfold m, BUFSIZE; lia).
  destruct (Z.ltb_spec (Z.of_nat m) 0) as [|_]; [lia|].
  cbn [andb mbind option_bind].
  destruct (Z.gtb_spec (Z.of_nat m) 0) as [_|]; [|lia].
  rewrite safe_write_error by (lia || done). cbn [mbind option_bind].
  destruct (Z.eqb_spec (-1) (Z.of_nat m)) as [|_]; [lia|].
  reflexivity.
Qed.

Lemma no_filter_write_error_witness :
  no_filter {| ranswers := RGive 512 :: []; stream := 104 :: [105] |}
    (replicate BUFSIZE 0)
    {| answers := WFail 32 :: []; sink := []; calls := [] |} =
  Some ({| ranswers := [];
           stream := drop (512 `min` (BUFSIZE `min` S (length [105])))
                          (104 :: [105]) |},
        {| answers := []; sink := [];
           calls := [] ++ [(0, Z.of_nat
                              (512 `min` (BUFSIZE `min` S (length [105]))))] |}).
Proof.
  apply (no_filter_write_error 511 [] 104 [105] (replicate BUFSIZE 0) 32
           [] [] []).
  discriminate.
Defined.

End RelayFacts.

(** * Further properties of [run] *)
Section PtyMore.

Import Pty.

Lemma run_child_aux (o : os) (fds : gset Z) :
  ¬ fails o → fork o = 0 →
  ∃ fds', run o fds = (if execvp_replaces o then Execs fds' else Exits 1 fds').
Proof.
  unfold fails, run. intros H Hfork.
  destruct (Z.ltb_spec (posix_openpt o) 0); [tauto|].
  destruct (Z.eqb_spec (grantpt o) 0); [|tauto].
  destruct (Z.eqb_spec (unlockpt o) 0); [|tauto].
  destruct (ptsname o) as [dev|] eqn:Hdev; [|tauto].
  destruct (Z.ltb_spec (open o) 0); [tauto|].
  cbn [negb orb]. rewrite bool_decide_true by eauto. cbn [negb].
  rewrite Hfork. cbn [Z.ltb Z.gtb Z.compare].
  eexists. by destruct (execvp_replaces o).
Qed.

Lemma run_failure_closes_aux (o : os) (fds : gset Z) :
  fresh o fds → fails o → ∃ child, run o fds = Returns (-1) child fds.
Proof.
  unfold fresh, fails, run. intros [Hm Hs] H.
  destruct (Z.ltb_spec (posix_openpt o) 0) as [|Hm0]; [by exists None|].
  specialize (Hm Hm0).
  destruct (Z.eqb_spec (grantpt o) 0);
    [|exists None; by rewrite close_opened].
  destruct (Z.eqb_spec (unlockpt o) 0);
    [|exists None; by rewrite close_opened].
  destruct (ptsname o) as [dev|] eqn:Hdev;
    [|exists None; by rewrite close_opened].
  destruct (Z.ltb_spec (open o) 0) as [|Hs0];
    [exists None; cbn [negb orb];
     rewrite bool_decide_true by eauto; by rewrite close_opened|].
  specialize (Hs Hs0).
  cbn [negb orb]. rewrite bool_decide_true by eauto. cbn [negb].
  destruct (Z.ltb_spec (fork o) 0) as [Hf|Hf].
  - exists (Some (fork o)). f_equal. by apply close_opened_two.
  - exfalso. destruct H as [?|[?|[?|[?|[?|?]]]]]; (lia || done).
Qed.

(** X10.  When the session is established, [run] returns in the parent
    with the master descriptor, which is not negative, and has stored the
    pid that [fork] returned; the slave has been closed again, so the
    master is the only descriptor that the parent has gained. *)
Theorem run_parent_keeps_master (o : os) (fds : gset Z) :
  ¬ fails o → 0 < fork o →
  posix_openpt o ∉ fds → open o ∉ fds → open o ≠ posix_openpt o →
  0 <= posix_openpt o ∧
  run o fds =
    Returns (posix_openpt o) (Some (fork o)) (opened (posix_openpt o) fds).
Proof.
  intros Hok Hfork Hm Hs Hne.
  destruct (run_parent o fds Hok Hfork) as [H0 ->]. split; [done|].
  f_equal. apply close_opened. unfold opened.
  rewrite not_elem_of_union, not_elem_of_singleton. done.
Qed.

Lemma run_parent_keeps_master_witness :
  0 <= 3 ∧
  run (Examples.os_with_fork 1234) Examples.std_fds =
    Returns 3 (Some 1234) (opened 3 Examples.std_fds).
Proof.
  apply (run_parent_keeps_master (Examples.os_with_fork 1234)
           Examples.std_fds).
  - unfold fails. simpl. intros [?|[?|[?|[?|[?|?]]]]]; (lia || done).
  - simpl. lia.
  - simpl. unfold Examples.std_fds.
    rewrite !not_elem_of_union, !not_elem_of_singleton. lia.
  - simpl. unfold Examples.std_fds.
    rewrite !not_elem_of_union, !not_elem_of_singleton. lia.
  - simpl. lia.
Defined.

(** X11.  In the forked child [run] does not return: the target program
    takes over, or the child exits with 1 when [execvp] fails.  By then
    descriptors 0, 1 and 2 are open, the master is closed, the slave is
    closed unless it is one of 0, 1, 2, and every other descriptor of the
    parent is still open. *)
Theorem run_child_descriptors (o : os) (fds : gset Z) :
  ¬ fails o → fork o = 0 →
  ∃ fds',
    run o fds = (if execvp_replaces o then Execs fds' else Exits 1 fds') ∧
    (0 ∈ fds' ∧ 1 ∈ fds' ∧ 2 ∈ fds') ∧
    (2 < posix_openpt o → posix_openpt o ∉ fds') ∧
    (2 < open o → open o ∉ fds') ∧
    (∀ fd, fd ∈ fds → fd ≠ posix_openpt o → fd ≠ open o → fd ∈ fds').
Proof.
  unfold fails, run. intros H Hfork.
  destruct (Z.ltb_spec (posix_openpt o) 0); [tauto|].
  destruct (Z.eqb_spec (grantpt o) 0); [|tauto].
  destruct (Z.eqb_spec (unlockpt o) 0); [|tauto].
  destruct (ptsname o) as [dev|] eqn:Hdev; [|tauto].
  destruct (Z.ltb_spec (open o) 0); [tauto|].
  cbn [negb orb]. rewrite bool_decide_true by eauto. cbn [negb].
  rewrite Hfork. cbn [Z.ltb Z.gtb Z.compare].
  set (G := dup2 (open o) 2 (dup2 (open o) 1 (dup2 (open o) 0
              (close (posix_openpt o)
                 (opened (open o) (opened (posix_openpt o) fds)))))).
  exists (if open o >? 2 then close (open o) G else G).
  split; [by destruct (execvp_replaces o)|].
  assert (Hin : ∀ fd,
            fd ∈ (if open o >? 2 then close (open o) G else G) ↔
            (fd = 2 ∨ fd = 1 ∨ fd = 0 ∨
             (fd = open o ∨ fd = posix_openpt o ∨ fd ∈ fds) ∧
             fd ≠ posix_openpt o) ∧
            ¬ (2 < open o ∧ fd = open o)).
  { intros fd. unfold G, dup2, close, opened.
    destruct (Z.gtb_spec (open o) 2);
      rewrite ?elem_of_difference, !elem_of_union, elem_of_difference,
        !elem_of_union, !elem_of_singleton; intuition lia. }
  split; [|split; [|split]].
  - rewrite !Hin. intuition lia.
  - rewrite Hin. intuition lia.
  - rewrite Hin. intuition lia.
  - intros fd Hfd Hm Hs. rewrite Hin. intuition lia.
Qed.

Lemma run_child_descriptors_witness :
  ∃ fds',
    run (Examples.os_with_fork 0) Examples.std_fds =
      (if execvp_replaces (Examples.os_with_fork 0)
       then Execs fds' else Exits 1 fds') ∧
    (0 ∈ fds' ∧ 1 ∈ fds' ∧ 2 ∈ fds') ∧
    (2 < posix_openpt (Examples.os_with_fork 0) →
     posix_openpt (Examples.os_with_fork 0) ∉ fds') ∧
    (2 < open (Examples.os_with_fork 0) →
     open (Examples.os_with_fork 0) ∉ fds') ∧
    (∀ fd, fd ∈ Examples.std_fds →
           fd ≠ posix_openpt (Examples.os_with_fork 0) →
           fd ≠ open (Examples.os_with_fork 0) → fd ∈ fds').
Proof.
  apply (run_child_descriptors (Examples.os_with_fork 0) Examples.std_fds).
  - unfold fails. simpl. intros [?|[?|[?|[?|[?|?]]]]]; (lia || done).
  - reflexivity.
Defined.

(** X12.  What [run] returns tells how it went: it returns -1 exactly
    when a step of the session establishment failed, and otherwise the
    master descriptor, not negative, with the positive pid of the child
    stored; it ends in the child only when nothing failed and [fork]
    returned 0, with the target program when [execvp] succeeds and with
    exit status 1 when it does not. *)
Theorem run_outcome (o : os) (fds : gset Z) :
  match run o fds with
  | Returns ret child _ =>
      (ret = -1 ∧ fails o) ∨
      (ret = posix_openpt o ∧ 0 <= ret ∧ ¬ fails o ∧
       0 < fork o ∧ child = Some (fork o))
  | Execs _ => ¬ fails o ∧ fork o = 0 ∧ execvp_replaces o = true
  | Exits code _ =>
      code = 1 ∧ ¬ fails o ∧ fork o = 0 ∧ execvp_replaces o = false
  end.
Proof.
  unfold run, fails.
  destruct (Z.ltb_spec (posix_openpt o) 0); [left; tauto|].
  destruct (Z.eqb_spec (grantpt o) 0); [|left; tauto].
  destruct (Z.eqb_spec (unlockpt o) 0); [|left; tauto].
  destruct (ptsname o) as [dev|] eqn:Hdev; [|left; tauto].
  destruct (Z.ltb_spec (open o) 0); [left; cbn; tauto|].
  cbn [negb orb]. rewrite bool_decide_true by eauto. cbn [negb].
  assert (Hok : fork o < 0 ∨
                ¬ (posix_openpt o < 0 ∨ grantpt o ≠ 0 ∨ unlockpt o ≠ 0 ∨
                   Some dev = None ∨ open o < 0 ∨ fork o < 0)).
  { destruct (Z.ltb_spec (fork o) 0); [by left|right].
    intros [?|[?|[?|[?|[?|?]]]]]; (lia || done). }
  destruct (Z.ltb_spec (fork o) 0); [left; tauto|].
  destruct Hok as [|Hok]; [lia|].
  destruct (Z.gtb_spec (fork o) 0); [right; repeat split; (lia || done)|].
  assert (fork o = 0) by lia.
  destruct (execvp_replaces o); repeat split; done.
Qed.

End PtyMore.

(** * Further properties of [main] *)
Section MainMore.

Import Main.

Variable termios : Type.
Variable cfmakeraw : termios → termios.
Variable WIFEXITED : Z → bool.
Variable WEXITSTATUS : Z → Z.

Local Abbreviation main := (Main.main cfmakeraw WIFEXITED WEXITSTATUS).

(** X13.  Whatever happens, [main] leaves the attributes of the terminal
    as it found them: with no command, with a failed session, in the
    forked child, and after the session whether the child exited,
    was killed or could not be waited for. *)
Theorem main_restores_terminal (e : env) (w : world termios) :
  tty (main e w).2 = tty w.
Proof.
  unfold Main.main. destruct (argc e <? 2); [done|].
  destruct (Pty.run (pty e) (fds w)) as [master child s|s|c s]; [|done..].
  destruct (master <? 0); [done|].
  by destruct (isatty0 e), (waitpid e).
Qed.

(** X14.  When [main] does not get to the session, for want of a command
    or because the session could not be established, it exits with 1
    after one message and nothing else: no thread is created, there is no
    call on the terminal, and the descriptors that are open are those that
    were open before. *)
Theorem main_without_session (e : env) (w : world termios) :
  argc e < 2 ∨ (Pty.fails (pty e) ∧ Pty.fresh (pty e) (fds w)) →
  ∃ msg,
    (msg = Usage ∨ msg = Perror "cannot run program") ∧
    main e w =
      (Exit 1, {| tty := tty w; fds := fds w; trace := trace w ++ [msg] |}).
Proof.
  intros H. unfold Main.main.
  destruct (Z.ltb_spec (argc e) 2) as [Hargc|Hargc].
  - exists Usage. split; [by left|done].
  - destruct H as [|[Hfails Hfresh]]; [lia|].
    destruct (run_failure_closes_aux (pty e) (fds w) Hfresh Hfails)
      as (child & ->).
    exists (Perror "cannot run program"). split; [by right|done].
Qed.

(** X15.  The session in order: with a terminal, raw mode is entered
    before any thread is started; the relay from descriptor 0 to the
    master is started first and the filtered relay from the master to
    descriptor 1 second, both are detached, [main] sleeps for a second and
    then waits for the pid that [fork] returned, reports a failed wait,
    and restores the terminal last.  The master is never closed: it is the
    one descriptor that is open in addition when [main] returns. *)
Theorem main_session_order (e : env) (w : world termios) :
  reaches_session e →
  Pty.posix_openpt (pty e) ∉ fds w → Pty.open (pty e) ∉ fds w →
  Pty.open (pty e) ≠ Pty.posix_openpt (pty e) →
  (main e w).2 =
    {| tty := tty w;
       fds := Pty.opened (Pty.posix_openpt (pty e)) (fds w);
       trace := trace w ++
         session_events cfmakeraw e (tty w) (Pty.posix_openpt (pty e))
           (Some (Pty.fork (pty e))) |}.
Proof.
  intros (Hargc & Hok & Hfork) Hm Hs Hne. unfold Main.main.
  destruct (Z.ltb_spec (argc e) 2); [lia|].
  destruct (run_parent (pty e) (fds w) Hok Hfork) as [H0 ->].
  destruct (Z.ltb_spec (Pty.posix_openpt (pty e)) 0); [lia|].
  rewrite close_opened; last first.
  { unfold Pty.opened. by rewrite not_elem_of_union, not_elem_of_singleton. }
  unfold session_events.
  destruct (isatty0 e), (waitpid e) as [st|];
    unfold tcgetattr, tcsetattr, emit, with_fds; cbn [tty fds trace snd];
    rewrite <- ?app_assoc; reflexivity.
Qed.

(** X16.  In the forked child [main] goes no further than [run]: the
    process becomes the target program, or exits with 1 after the message
    of [run] when [execvp] fails; no thread is created and there is no
    call on the terminal. *)
Theorem main_in_child (e : env) (w : world termios) :
  2 <= argc e → ¬ Pty.fails (pty e) → Pty.fork (pty e) = 0 →
  ∃ s,
    main e w =
      if Pty.execvp_replaces (pty e)
      then (Exec, {| tty := tty w; fds := s; trace := trace w |})
      else (Exit 1, {| tty := tty w; fds := s;
                       trace := trace w ++ [Perror "cannot run program"] |}).
Proof.
  intros Hargc Hok Hfork. unfold Main.main.
  destruct (Z.ltb_spec (argc e) 2); [lia|].
  destruct (run_child_aux (pty e) (fds w) Hok Hfork) as [s ->].
  exists s. by destruct (Pty.execvp_replaces (pty e)).
Qed.

End MainMore.

Lemma main_without_session_witness :
  ∃ msg,
    (msg = Main.Usage ∨ msg = Main.Perror "cannot run program") ∧
    Main.main Examples.raw Examples.wifexited Examples.wexitstatus
      {| Main.argc := 2; Main.pty := Examples.os_with_fork (-1);
         Main.isatty0 := true; Main.waitpid := None |}
      Examples.cooked_world =
      (Main.Exit 1,
       {| Main.tty := Main.tty Examples.cooked_world;
          Main.fds := Main.fds Examples.cooked_world;
          Main.trace := Main.trace Examples.cooked_world ++ [msg] |}).
Proof.
  apply (main_without_session Z Examples.raw Examples.wifexited
           Examples.wexitstatus
           {| Main.argc := 2; Main.pty := Examples.os_with_fork (-1);
              Main.isatty0 := true; Main.waitpid := None |}
           Examples.cooked_world).
  right. split.
  - unfold Pty.fails. simpl. lia.
  - split; intros _; simpl; unfold Examples.std_fds;
      rewrite !not_elem_of_union, !not_elem_of_singleton; lia.
Defined.

Lemma main_session_order_witness :
  (Main.main Examples.raw Examples.wifexited Examples.wexitstatus
     (Examples.env_with true (Some 768)) Examples.cooked_world).2 =
  {| Main.tty := 0;
     Main.fds := Pty.opened 3 Examples.std_fds;
     Main.trace :=
       [Main.Tcgetattr 0; Main.Tcsetattr 1;
        Main.ThrdCreate 0 3 false; Main.ThrdCreate 3 1 true;
        Main.ThrdDetach false; Main.ThrdDetach true; Main.Sleep 1;
        Main.Waitpid (Some 1234); Main.Tcsetattr 0] |}.
Proof.
  apply (main_session_order Z Examples.raw Examples.wifexited
           Examples.wexitstatus (Examples.env_with true (Some 768))
           Examples.cooked_world (reaches_session_example true (Some 768))).
  - simpl. unfold Examples.std_fds.
    rewrite !not_elem_of_union, !not_elem_of_singleton. lia.
  - simpl. unfold Examples.std_fds.
    rewrite !not_elem_of_union, !not_elem_of_singleton. lia.
  - simpl. lia.
Defined.

Lemma main_in_child_witness :
  ∃ s,
    Main.main Examples.raw Examples.wifexited Examples.wexitstatus
      {| Main.argc := 2; Main.pty := Examples.os_with_fork 0;
         Main.isatty0 := true; Main.waitpid := None |}
      Examples.cooked_world =
    (Main.Exec, {| Main.tty := 0; Main.fds := s; Main.trace := [] |}).
Proof.
  apply (main_in_child Z Examples.raw Examples.wifexited
           Examples.wexitstatus
           {| Main.argc := 2; Main.pty := Examples.os_with_fork 0;
              Main.isatty0 := true; Main.waitpid := None |}
           Examples.cooked_world).
  - simpl. lia.
  - unfold Pty.fails. simpl. intros [?|[?|[?|[?|[?|?]]]]]; (lia || done).
  - reflexivity.
Defined.

(** * The threads layer *)
Section ThreadsFacts.

Import Threads.

Lemma land_1_odd (a : Z) : (Z.land a 1 =? 0) = negb (Z.odd a).
Proof.
  change 1 with (Z.ones 1). rewrite Z.land_ones by lia.
  change (2 ^ 1) with 2. rewrite Zmod_odd. by destruct (Z.odd a).
Qed.

(** X17.  [mtx_init] reports success exactly when both the attributes and
    the mutex could be initialised; the mutex is asked to be recursive
    exactly when the type has the [mtx_recursive] bit, that is when it is
    odd, so for [mtx_recursive] and [mtx_timed | mtx_recursive] and not for
    [mtx_plain] and [mtx_timed]; and the attributes are destroyed whenever
    they were initialised, whether the mutex could be initialised or
    not. *)
Theorem mtx_init_behaviour (ENOMEM attr_ret init_ret type : Z) :
  ((mtx_init ENOMEM attr_ret init_ret type).1 = thrd_success ↔
     attr_ret = 0 ∧ init_ret = 0) ∧
  (Mutexattr_settype PTHREAD_MUTEX_RECURSIVE
     ∈ (mtx_init ENOMEM attr_ret init_ret type).2 ↔
     attr_ret = 0 ∧ Z.odd type = true) ∧
  (Mutexattr_settype PTHREAD_MUTEX_DEFAULT
     ∈ (mtx_init ENOMEM attr_ret init_ret type).2 ↔
     attr_ret = 0 ∧ Z.odd type = false) ∧
  (Mutexattr_destroy ∈ (mtx_init ENOMEM attr_ret init_ret type).2 ↔
     attr_ret = 0) ∧
  (Mutex_init ∈ (mtx_init ENOMEM attr_ret init_ret type).2 ↔ attr_ret = 0).
Proof.
  unfold mtx_init, mtx_recursive. rewrite land_1_odd, negb_involutive.
  destruct (Z.eqb_spec attr_ret 0) as [Ha|Ha]; cbn [negb fst snd].
  - destruct (Z.eqb_spec init_ret 0) as [Hi|Hi];
      [|destruct (init_ret =? ENOMEM)];
      destruct (Z.odd type);
      rewrite !elem_of_cons, !elem_of_nil; intuition congruence.
  - rewrite !elem_of_cons, !elem_of_nil. intuition congruence.
Qed.

End ThreadsFacts.
